(** * Verification of package [perfect] (perfect.go)

    A shallow embedding of the perfect-hash coefficient search:
    [Coef], [HashSequential] and [HashFinder.Search].

    Machine model.  Go's [uint] and [int] are taken to be 64 bits wide
    (the code accepts [tableSizeBits] up to 32 and computes
    [1 << tableSizeBits] in an [int]).  A [uint] is a [Z] in
    [0, 2^64) and every arithmetic result is reduced with [wrap]; an
    [int] is a [Z] in [-2^63, 2^63) and is reduced with [int_wrap].
    A Go string is a sequence of bytes, modelled by [string], whose
    characters are the bytes.  A run-time panic is the [None] of an
    [option].  The attempt counter of [Search] is the one integer kept
    unbounded: it grows by one per loop iteration and cannot leave the
    range of [int] before 2^63 iterations have run. *)

From Stdlib Require Import ZArith QArith Lia Bool.
From stdpp Require Import base option list strings.

#[local] Open Scope Z_scope.

(** ** Machine integers *)

Definition uint_bits : Z := 64.
Definition uint_mod : Z := 2 ^ uint_bits.
Definition int_min : Z := - 2 ^ (uint_bits - 1).
Definition int_max : Z := 2 ^ (uint_bits - 1) - 1.

(** Reduction of a mathematical integer to a [uint]. *)
Definition wrap (z : Z) : Z := z mod uint_mod.

(** Reduction of a mathematical integer to an [int] (two's complement). *)
Definition int_wrap (z : Z) : Z := (z + 2 ^ (uint_bits - 1)) mod uint_mod - 2 ^ (uint_bits - 1).

(** [-x] on [int]. *)
Definition int_neg (x : Z) : Z := int_wrap (- x).
(** [uint(x)] for an [int] x. *)
Definition uint_of_int (x : Z) : Z := wrap x.

(** ** Strings *)

(** [len(s)] as an [int]. *)
Definition len (s : string) : Z := Z.of_nat (String.length s).

(** [s[i]] for an [int] index: the byte, or a panic out of range. *)
Definition byteAt (s : string) (i : Z) : option Z :=
  if (i <? 0) || (len s <=? i) then None
  else (λ a, Z.of_N (Ascii.N_of_ascii a)) <$> String.get (Z.to_nat i) s.

(** ** type Op int *)

Definition Op : Type := Z.
Definition opUndefined : Op := 0.
Definition OpAdd : Op := 1.
Definition OpXor : Op := 2.
Definition OpMul : Op := 3.

(** ** type Coef struct *)

Record Coef : Type := mkCoef {
  IndexApplied : Z;   (* int *)
  Value : Z;          (* uint *)
  MaxValue : Z;       (* uint *)
  StartValue : Z;     (* uint *)
  OnlyPow2 : bool;
  CoefOp : Op
}.

Definition set_Value (c : Coef) (v : Z) : Coef :=
  mkCoef (IndexApplied c) v (MaxValue c) (StartValue c) (OnlyPow2 c) (CoefOp c).
Definition set_MaxValue (c : Coef) (m : Z) : Coef :=
  mkCoef (IndexApplied c) (Value c) m (StartValue c) (OnlyPow2 c) (CoefOp c).
Definition set_Op (c : Coef) (o : Op) : Coef :=
  mkCoef (IndexApplied c) (Value c) (MaxValue c) (StartValue c) (OnlyPow2 c) o.

(** The errors the package returns. *)
Inductive error : Type :=
| ErrTableSizeBits        (* "zero/negative bits for table size or too large" *)
| ErrZeroInputs           (* "zero inputs" *)
| ErrNoCoefficientsFound  (* "no coefficients found" *)
| ErrDefaultMax.          (* "default max coefficient need be set and positive for input" *)

(** func (c *Coef) init() *)
Definition Coef_init (c : Coef) : Coef :=
  let c := if StartValue c =? 0 then set_Value c 1 else set_Value c (StartValue c) in
  if CoefOp c =? opUndefined then set_Op c OpAdd else c.

(** func (c *Coef) Increment() *)
Definition Coef_Increment (c : Coef) : Coef :=
  if OnlyPow2 c then set_Value c (wrap (Value c * 2))
  else set_Value c (wrap (Value c + 1)).

(** func (c *Coef) Saturated() bool *)
Definition Coef_Saturated (c : Coef) : bool := MaxValue c <=? Value c.

(** func (coef *Coef) Apply(h uint, kw string) uint.  The negation
    [-idx] is the one of [int] and wraps; the sum [len(kw)+idx] is
    taken with [idx < 0 <= len(kw)], where it cannot overflow.  The
    [default] branch of the switch panics. *)
Definition Coef_Apply (coef : Coef) (h : Z) (kw : string) : option Z :=
  let idx := IndexApplied coef in
  a ← (if (idx <? 0) && (int_neg idx <=? len kw) then
         b ← byteAt kw (len kw + idx); Some (wrap (b * Value coef))
       else if (0 <=? idx) && (idx <? len kw) then
         b ← byteAt kw idx; Some (wrap (b * Value coef))
       else Some 0);
  if CoefOp coef =? OpAdd then Some (wrap (h + a))
  else if CoefOp coef =? OpXor then Some (Z.lxor h a)
  else if CoefOp coef =? OpMul then Some (wrap (h * a))
  else None.

(** func (coef *Coef) config(defaultMax uint) error.  The receiver is
    mutated even when an error is returned. *)
Definition Coef_config (coef : Coef) (defaultMax : Z) : Coef * option error :=
  let coef := Coef_init coef in
  if MaxValue coef =? 0 then
    if defaultMax <=? 0 then (coef, Some ErrDefaultMax)
    else (set_MaxValue coef defaultMax, None)
  else (coef, None).

(** ** type HashSequential struct *)

Record HashSequential : Type := mkHS {
  LenCoef : Coef;
  Coefs : list Coef
}.

(** The loop of [ConfigCoefs] over the coefficient slice: it stops at
    the first error, leaving the coefficients after it untouched. *)
Fixpoint config_all (coefs : list Coef) (defaultMax : Z) : list Coef * option error :=
  match coefs with
  | [] => ([], None)
  | c :: rest =>
      match Coef_config c defaultMax with
      | (c', Some e) => (c' :: rest, Some e)
      | (c', None) =>
          let '(rest', e) := config_all rest defaultMax in (c' :: rest', e)
      end
  end.

(** func (hs *HashSequential) ConfigCoefs(defaultMax uint) error *)
Definition HashSequential_ConfigCoefs (hs : HashSequential) (defaultMax : Z)
  : HashSequential * option error :=
  match config_all (Coefs hs) defaultMax with
  | (coefs, Some e) => (mkHS (LenCoef hs) coefs, Some e)
  | (coefs, None) =>
      let '(l, e) := Coef_config (LenCoef hs) defaultMax in (mkHS l coefs, e)
  end.

(** The loop of [Hash] over the coefficients. *)
Fixpoint apply_all (coefs : list Coef) (h : Z) (kw : string) : option Z :=
  match coefs with
  | [] => Some h
  | c :: rest => h' ← Coef_Apply c h kw; apply_all rest h' kw
  end.

(** func (hs *HashSequential) Hash(dataToHash string) uint *)
Definition HashSequential_Hash (hs : HashSequential) (dataToHash : string) : option Z :=
  apply_all (Coefs hs) (wrap (uint_of_int (len dataToHash) * Value (LenCoef hs))) dataToHash.

(** The carry loop of [Increment],
    [for i := 0; coefs[i].Saturated() && i < len(coefs)-1; i++], entered
    with [c] = [coefs[i]] and [rest] = [coefs[i+1:]]: while [coefs[i]]
    is saturated and is not the last one, it is re-initialised and the
    next one is incremented. *)
Fixpoint carry (c : Coef) (rest : list Coef) : list Coef :=
  match rest with
  | [] => [c]
  | c' :: rest' =>
      if Coef_Saturated c then Coef_init c :: carry (Coef_Increment c') rest'
      else c :: rest
  end.

(** func (hs *HashSequential) Increment() (done bool).  [coefs[0]] panics
    on an empty slice. *)
Definition HashSequential_Increment (hs : HashSequential) : option (HashSequential * bool) :=
  match Coefs hs with
  | [] => None
  | c0 :: rest =>
      let coefs := carry (Coef_Increment c0) rest in
      let n := length coefs in
      lst ← coefs !! (n - 1)%nat;
      let '(coefs, l) :=
        if Coef_Saturated lst
        then (<[(n - 1)%nat := Coef_init lst]> coefs, Coef_Increment (LenCoef hs))
        else (coefs, LenCoef hs) in
      Some (mkHS l coefs, MaxValue l <? Value l)
  end.

(** ** type Hash interface *)

Class Hash (H : Type) : Type := {
  Hash_Hash : H → string → option Z;
  Hash_Increment : H → option (H * bool)
}.

#[export] Instance HashSequential_Hash_impl : Hash HashSequential := {|
  Hash_Hash := HashSequential_Hash;
  Hash_Increment := HashSequential_Increment
|}.

(** ** type HashFinder struct

    [hashmap] holds the elements of the slice up to its length; the
    spare capacity behind it is not modelled. *)

Record HashFinder : Type := mkHF { hashmap : list Z }.

(** How a call ends: it returns, it panics, or the fuel given to the
    model of its unbounded loop runs out before the loop ends. *)
Inductive outcome (A : Type) : Type :=
| Returns (a : A)
| Panics
| OutOfFuel.
Arguments Returns {A} a.
Arguments Panics {A}.
Arguments OutOfFuel {A}.

(** What [Search] leaves behind when it returns: the two results and
    the objects it mutated. *)
Record SearchResult (H : Type) : Type := mkSR {
  attempts : Z;
  err : option error;
  hasher_after : H;
  finder_after : HashFinder
}.
Arguments mkSR {H} _ _ _ _.
Arguments attempts {H} _.
Arguments err {H} _.
Arguments hasher_after {H} _.
Arguments finder_after {H} _.

(** [1 << tableSizeBits] on [int]. *)
Definition tableSize (tableSizeBits : Z) : Z := int_wrap (Z.shiftl 1 tableSizeBits).

(** [mask := uint(tblsz) - 1] *)
Definition tableMask (tableSizeBits : Z) : Z :=
  wrap (uint_of_int (tableSize tableSizeBits) - 1).

(** [slices.Grow(hashmap[:0], tblsz)[:tblsz]]: a slice of [tblsz]
    elements that keeps the old contents and is zero beyond them. *)
Definition growTable (hashmap : list Z) (tblsz : Z) : list Z :=
  take (Z.to_nat tblsz) hashmap ++ replicate (Z.to_nat tblsz - length hashmap) 0.

(** [clear(hashmap)] *)
Definition clearTable (hashmap : list Z) : list Z := replicate (length hashmap) 0.

Section Search.
Context {H : Type} `{Hash H}.

(** The index [hasher.Hash(kw) & mask]. *)
Definition tableIndex (hasher : H) (mask : Z) (kw : string) : option Z :=
  h ← Hash_Hash hasher kw; Some (Z.land h mask).

(** The inner loop [for _, kw := range inputs] of one attempt.  The
    result is [attemptSuccess] and the table; both slice accesses
    panic out of range. *)
Fixpoint placeInputs (hasher : H) (mask : Z) (hashmap : list Z) (inputs : list string)
  : option (bool * list Z) :=
  match inputs with
  | [] => Some (true, hashmap)
  | kw :: rest =>
      h ← tableIndex hasher mask kw;
      tok ← hashmap !! Z.to_nat h;
      if negb (tok =? 0) then Some (false, hashmap)
      else placeInputs hasher mask (<[Z.to_nat h := 1]> hashmap) rest
  end.

(** The outer [for] loop of [Search], entered with the value of
    [currentAttempt] before the increment. *)
Fixpoint searchLoop (fuel : nat) (hasher : H) (mask : Z) (hashmap : list Z)
    (inputs : list string) (currentAttempt : Z) : outcome (SearchResult H) :=
  match fuel with
  | O => OutOfFuel
  | S fuel =>
      let currentAttempt := currentAttempt + 1 in
      match placeInputs hasher mask (clearTable hashmap) inputs with
      | None => Panics
      | Some (true, hashmap) =>
          Returns (mkSR currentAttempt None hasher (mkHF hashmap))
      | Some (false, hashmap) =>
          match Hash_Increment hasher with
          | None => Panics
          | Some (hasher, true) =>
              Returns (mkSR currentAttempt (Some ErrNoCoefficientsFound) hasher (mkHF hashmap))
          | Some (hasher, false) =>
              searchLoop fuel hasher mask hashmap inputs currentAttempt
          end
      end
  end.

(** func (phf *HashFinder) Search(hasher Hash, tableSizeBits int, inputs []string) (int, error) *)
Definition HashFinder_Search (fuel : nat) (phf : HashFinder) (hasher : H)
    (tableSizeBits : Z) (inputs : list string) : outcome (SearchResult H) :=
  if (tableSizeBits <=? 0) || (32 <? tableSizeBits) then
    Returns (mkSR 0 (Some ErrTableSizeBits) hasher phf)
  else if (length inputs =? 0)%nat then
    Returns (mkSR 0 (Some ErrZeroInputs) hasher phf)
  else
    let tblsz := tableSize tableSizeBits in
    let hashmap := growTable (hashmap phf) tblsz in
    let mask := tableMask tableSizeBits in
    searchLoop fuel hasher mask hashmap inputs 0.

(** The hasher after [n] calls of [Increment], none of which reported
    [done] or panicked. *)
Fixpoint advance (n : nat) (hasher : H) : option H :=
  match n with
  | O => Some hasher
  | S n =>
      match Hash_Increment hasher with
      | Some (hasher, false) => advance n hasher
      | _ => None
      end
  end.
End Search.

(** * Vocabulary of the statements *)

(** [value_after onlyPow2 v] is the value [Coef.Increment] leaves. *)
Definition value_after (onlyPow2 : bool) (v : Z) : Z :=
  if onlyPow2 then wrap (v * 2) else wrap (v + 1).

(** How many doublings of [v] stay below [m]. *)
Fixpoint doublings_below (fuel : nat) (v m : Z) : Z :=
  match fuel with
  | O => 0
  | S fuel => if v * 2 <? m then 1 + doublings_below fuel (v * 2) m else 0
  end.

(** How many successive increments of a coefficient that holds [v]
    leave a value below [m]. *)
Definition steps_below (onlyPow2 : bool) (v m : Z) : Z :=
  if onlyPow2 then doublings_below 64 v m else Z.max 0 (m - 1 - v).

(** The value [init] gives a coefficient. *)
Definition startOf (c : Coef) : Z := Value (Coef_init c).

(** Increments left before a byte coefficient saturates. *)
Definition stepsLeft (c : Coef) : Z :=
  steps_below (OnlyPow2 c) (Value c) (MaxValue c).

(** The range size of a byte coefficient: the number of values it
    takes from [init] until it saturates, which are the start value
    and each following value below [MaxValue]. *)
Definition coefRange (c : Coef) : Z :=
  1 + steps_below (OnlyPow2 c) (startOf c) (MaxValue c).

(** Increments left before the length coefficient exceeds [MaxValue]. *)
Definition lenStepsLeft (c : Coef) : Z :=
  steps_below (OnlyPow2 c) (Value c) (MaxValue c + 1).

(** The range size of the length coefficient: the start value and each
    following value up to and including [MaxValue]. *)
Definition lenRange (c : Coef) : Z :=
  1 + steps_below (OnlyPow2 c) (startOf c) (MaxValue c + 1).

(** The product of the range sizes of the byte coefficients. *)
Fixpoint coefsSpace (coefs : list Coef) : Z :=
  match coefs with
  | [] => 1
  | c :: rest => coefRange c * coefsSpace rest
  end.

(** The search-space size: [lengthRange * coef1Range * coef2Range * ...]. *)
Definition searchSpace (hs : HashSequential) : Z :=
  lenRange (LenCoef hs) * coefsSpace (Coefs hs).

(** The byte coefficients read as a mixed-radix number counting down:
    the number of family increments left before the last byte
    coefficient saturates. *)
Fixpoint coefsLeft (coefs : list Coef) : Z :=
  match coefs with
  | [] => 0
  | c :: rest => stepsLeft c + coefRange c * coefsLeft rest
  end.

(** Increments of the family left before [Increment] reports done. *)
Definition familyLeft (hs : HashSequential) : Z :=
  lenStepsLeft (LenCoef hs) * coefsSpace (Coefs hs) + coefsLeft (Coefs hs).

(** No increment of the coefficient wraps around: its start and
    maximum are below 2^63. *)
Definition rangeFits (c : Coef) : Prop :=
  0 ≤ StartValue c < 2 ^ 63 ∧ 0 < MaxValue c < 2 ^ 63.

(** A byte coefficient inside its cycle. *)
Definition digitOk (c : Coef) : Prop :=
  rangeFits c ∧ 1 ≤ Value c < 2 ^ 63 ∧ stepsLeft c < coefRange c
  ∧ (Value c < MaxValue c ∨ Value c = startOf c).

(** The length coefficient on its way up. *)
Definition lenOk (c : Coef) : Prop :=
  rangeFits c ∧ 1 ≤ Value c < 2 ^ 63.

(** The state of a family whose increments do not wrap around and
    whose coefficients are inside their cycles. *)
Definition familyOk (hs : HashSequential) : Prop :=
  Forall digitOk (Coefs hs) ∧ Coefs hs ≠ [] ∧ lenOk (LenCoef hs).

(** Every byte coefficient starts below its maximum and the length
    coefficient has not passed its maximum. *)
Definition regular (hs : HashSequential) : Prop :=
  Forall (λ c, startOf c < MaxValue c) (Coefs hs)
  ∧ Value (LenCoef hs) ≤ MaxValue (LenCoef hs).

(** The [switch coef.Op] of [Apply]. *)
Definition combine (op : Op) (h a : Z) : option Z :=
  if op =? OpAdd then Some (wrap (h + a))
  else if op =? OpXor then Some (Z.lxor h a)
  else if op =? OpMul then Some (wrap (h * a))
  else None.

(** A coefficient [Apply] can evaluate: its index is an [int] other
    than the least one and its operation is one of the three. *)
Definition applyOk (c : Coef) : Prop :=
  int_min < IndexApplied c ≤ int_max
  ∧ (CoefOp c = OpAdd ∨ CoefOp c = OpXor ∨ CoefOp c = OpMul).

(** What [config] leaves when it returns no error. *)
Definition coefConfigured (c : Coef) : Prop :=
  Value c = startOf c ∧ MaxValue c ≠ 0 ∧ CoefOp c ≠ opUndefined.

Definition configured (hs : HashSequential) : Prop :=
  Forall coefConfigured (Coefs hs) ∧ coefConfigured (LenCoef hs).

(** No increment of any coefficient of the family wraps around. *)
Definition noWrap (hs : HashSequential) : Prop :=
  Forall rangeFits (Coefs hs) ∧ rangeFits (LenCoef hs).

(** The family can be evaluated on every string. *)
Definition evaluable (hs : HashSequential) : Prop := Forall applyOk (Coefs hs).

(** Every byte coefficient starts below its maximum and the length
    coefficient starts at or below its own. *)
Definition startsInRange (hs : HashSequential) : Prop :=
  Forall (λ c, startOf c < MaxValue c) (Coefs hs)
  ∧ startOf (LenCoef hs) ≤ MaxValue (LenCoef hs).

(** An attempt of [hasher] on a cleared table of [2^bits] slots ends
    on a collision. *)
Definition attemptFails {H : Type} `{Hash H} (hasher : H) (bits : Z)
    (inputs : list string) : Prop :=
  ∃ t', placeInputs hasher (2 ^ bits - 1) (replicate (Z.to_nat (2 ^ bits)) 0) inputs
        = Some (false, t').

(** The coefficient-value tuple of a family: the value of the length
    coefficient and the values of the byte coefficients. *)
Definition coefValues (hs : HashSequential) : Z * list Z :=
  (Value (LenCoef hs), Value <$> Coefs hs).

(** The part of a coefficient the search never changes. *)
Definition cfgOf (c : Coef) : Z * Z * bool := (StartValue c, MaxValue c, OnlyPow2 c).

(** The family of the package's example: power-of-two coefficients on
    bytes 0 and 1 combined by XOR, default maximum 16. *)
Definition exampleRaw : HashSequential :=
  mkHS (mkCoef 0 0 0 0 true OpAdd)
       [mkCoef 0 0 0 0 true OpXor; mkCoef 1 0 0 0 true OpXor].
Definition exampleFamily : HashSequential :=
  mkHS (mkCoef 0 1 16 0 true OpAdd)
       [mkCoef 0 1 16 0 true OpXor; mkCoef 1 1 16 0 true OpXor].

(** A family whose length coefficient doubles from 2^63. *)
Definition lenWrapRaw : HashSequential :=
  mkHS (mkCoef 0 0 (2 ^ 63) (2 ^ 63) true OpAdd) [mkCoef 0 0 2 0 false OpAdd].
Definition lenWrapFamily : HashSequential :=
  mkHS (mkCoef 0 (2 ^ 63) (2 ^ 63) (2 ^ 63) true OpAdd) [mkCoef 0 1 2 0 false OpAdd].

(** A family whose byte coefficient doubles from 2^63. *)
Definition byteWrapRaw : HashSequential :=
  mkHS (mkCoef 0 0 2 0 false OpAdd) [mkCoef 0 0 (2 ^ 63 + 1) (2 ^ 63) true OpAdd].
Definition byteWrapFamily : HashSequential :=
  mkHS (mkCoef 0 1 2 0 false OpAdd) [mkCoef 0 (2 ^ 63) (2 ^ 63 + 1) (2 ^ 63) true OpAdd].

(** A family whose byte coefficient doubles from 1 with the largest
    [uint] as maximum. *)
Definition maxUintRaw : HashSequential :=
  mkHS (mkCoef 0 0 2 0 false OpAdd) [mkCoef 0 0 (2 ^ 64 - 1) 0 true OpAdd].
Definition maxUintFamily : HashSequential :=
  mkHS (mkCoef 0 1 2 0 false OpAdd) [mkCoef 0 1 (2 ^ 64 - 1) 0 true OpAdd].

(** A family with the length coefficient only. *)
Definition lenOnlyRaw : HashSequential := mkHS (mkCoef 0 0 2 0 false opUndefined) [].
Definition lenOnlyFamily : HashSequential := mkHS (mkCoef 0 1 2 0 false OpAdd) [].

(** A family whose byte coefficient has the least [int] as index. *)
Definition leastIndexRaw : HashSequential :=
  mkHS (mkCoef 0 0 0 0 false OpAdd) [mkCoef int_min 0 0 0 false OpAdd].
Definition leastIndexFamily : HashSequential :=
  mkHS (mkCoef 0 1 16 0 false OpAdd) [mkCoef int_min 1 16 0 false OpAdd].

(** The position of a string an index designates: from the start when
    it is not negative, from the end when it is. *)
Definition byteRead (idx : Z) (kw : string) : option Z :=
  if (0 <=? idx) && (idx <? len kw) then byteAt kw idx
  else if (idx <? 0) && (- idx <=? len kw) then byteAt kw (len kw + idx)
  else None.

(** Modelled from the spec: the probability that one random trial
    places [inputCount] inputs in [tableSize] slots without collision,
    the falling-factorial product of [1 - i / tableSize] for [i] from
    0 to [inputCount - 1]. *)
Fixpoint singleTrialProbability (inputCount : nat) (tableSize : Z) : Q :=
  match inputCount with
  | O => 1%Q
  | S i => (singleTrialProbability i tableSize
            * (1 - inject_Z (Z.of_nat i) / inject_Z tableSize))%Q
  end.

(** What [Increment] can do to one byte coefficient: leave it, reset
    it, increment and reset it, or increment it short of saturation. *)
Definition touched (c c' : Coef) : Prop :=
  c' = c ∨ c' = Coef_init c ∨ c' = Coef_init (Coef_Increment c)
  ∨ (c' = Coef_Increment c ∧ Coef_Saturated c' = false).

(** What a caller of [Search] observes besides the scratch table: the
    attempt count, the error and the hasher. *)
Definition observable {H : Type} (o : outcome (SearchResult H))
  : outcome (Z * option error * H) :=
  match o with
  | Returns r => Returns (attempts r, err r, hasher_after r)
  | Panics => Panics
  | OutOfFuel => OutOfFuel
  end.

(** What a successful [config] makes of one coefficient: the index,
    the start value and the stepping are the caller's, an unset
    MaxValue takes the default, an unset operation becomes OpAdd, and
    the value is the start value, or 1 when that is 0. *)
Definition configOf (defaultMax : Z) (c c' : Coef) : Prop :=
  IndexApplied c' = IndexApplied c ∧ StartValue c' = StartValue c
  ∧ OnlyPow2 c' = OnlyPow2 c
  ∧ MaxValue c' = (if MaxValue c =? 0 then defaultMax else MaxValue c)
  ∧ CoefOp c' = (if CoefOp c =? opUndefined then OpAdd else CoefOp c)
  ∧ Value c' = (if StartValue c =? 0 then 1 else StartValue c).

(** The table indices of a list of inputs, in order (0 stands for an
    input the hasher cannot evaluate). *)
Definition indices {H : Type} `{Hash H} (hasher : H) (mask : Z)
    (inputs : list string) : list Z :=
  (λ kw, default 0 (tableIndex hasher mask kw)) <$> inputs.

(** Two strings a list of coefficients cannot tell apart: they have
    the same length and, at every coefficient's index, the same byte
    or no byte. *)
Definition sameReads (coefs : list Coef) (s1 s2 : string) : Prop :=
  len s1 = len s2
  ∧ Forall (λ c, byteRead (IndexApplied c) s1 = byteRead (IndexApplied c) s2) coefs.

(** [x + y] on [int]. *)
Definition int_add (x y : Z) : Z := int_wrap (x + y).

(** [int(x)] for a [uint] x. *)
Definition int_of_uint (x : Z) : Z := int_wrap x.

(** [rng.IntN(n)] of math/rand/v2: it panics when [n <= 0]; the value
    the generator draws is taken as an argument. *)
Definition IntN (drawn n : Z) : option Z := if n <=? 0 then None else Some drawn.

(** var ops = []perfect.Op{perfect.OpAdd, perfect.OpXor, perfect.OpMul} *)
Definition ops : list Op := [OpAdd; OpXor; OpMul].

(** func randomizeCoef(c *perfect.Coef, rng *rand.Rand, searchSpace int)
    of examples/fortran, with the two values the generator draws as
    arguments, in the order they are drawn. *)
Definition randomizeCoef (c : Coef) (drawn1 drawn2 : Z) (searchSpace : Z) : option Coef :=
  start ← IntN drawn1 (int_of_uint (MaxValue c));
  let end_ := Z.min (int_add start searchSpace) (int_of_uint (MaxValue c)) in
  i ← IntN drawn2 (Z.of_nat (length ops));
  op ← ops !! Z.to_nat i;
  Some (mkCoef (IndexApplied c) (uint_of_int start) (uint_of_int end_)
               (uint_of_int start) false op).

(** * Properties *)

(** ** Machine integers *)

Lemma uint_mod_eq : uint_mod = 18446744073709551616.
Proof. reflexivity. Qed.

Lemma wrap_range z : 0 ≤ wrap z < uint_mod.
Proof. unfold wrap. apply Z.mod_pos_bound. rewrite uint_mod_eq. lia. Qed.

Lemma wrap_small z : 0 ≤ z < uint_mod → wrap z = z.
Proof. intros Hz. unfold wrap. apply Z.mod_small. exact Hz. Qed.

Lemma int_wrap_small z : int_min ≤ z ≤ int_max → int_wrap z = z.
Proof.
  unfold int_min, int_max, int_wrap. intros Hz.
  rewrite Z.mod_small; [lia|]. rewrite uint_mod_eq.
  change (2 ^ (uint_bits - 1)) with 9223372036854775808 in *. lia.
Qed.

Lemma len_nonneg s : 0 ≤ len s.
Proof. unfold len. lia. Qed.

(** ** One coefficient as an odometer digit *)

Lemma doublings_below_nonneg fuel v m : 0 ≤ doublings_below fuel v m.
Proof.
  revert v. induction fuel as [|fuel IH]; intros v; simpl; [lia|].
  destruct (v * 2 <? m); [specialize (IH (v * 2))|]; lia.
Qed.

Lemma doublings_below_fuel fuel v m :
  0 < v → m ≤ v * 2 ^ Z.of_nat fuel →
  doublings_below (S fuel) v m = doublings_below fuel v m.
Proof.
  revert v. induction fuel as [|fuel IH]; intros v Hv Hm.
  - simpl in *. destruct (v * 2 <? m) eqn:E; [apply Z.ltb_lt in E; lia|done].
  - change (doublings_below (S (S fuel)) v m)
      with (if v * 2 <? m then 1 + doublings_below (S fuel) (v * 2) m else 0).
    change (doublings_below (S fuel) v m)
      with (if v * 2 <? m then 1 + doublings_below fuel (v * 2) m else 0).
    destruct (v * 2 <? m); [|done].
    rewrite IH; [done|lia|].
    rewrite Nat2Z.inj_succ, Z.pow_succ_r in Hm by lia. lia.
Qed.

Lemma doublings_below_step v m :
  0 < v → m ≤ 2 ^ 64 →
  doublings_below 64 v m =
    if v * 2 <? m then 1 + doublings_below 64 (v * 2) m else 0.
Proof.
  intros Hv Hm.
  change (doublings_below 64 v m)
    with (if v * 2 <? m then 1 + doublings_below 63 (v * 2) m else 0).
  destruct (v * 2 <? m); [|done].
  rewrite (doublings_below_fuel 63); [done|lia|].
  change (2 ^ Z.of_nat 63) with 9223372036854775808.
  change (2 ^ 64) with 18446744073709551616 in Hm. lia.
Qed.

Lemma steps_below_nonneg p v m : 0 ≤ steps_below p v m.
Proof. unfold steps_below. destruct p; [apply doublings_below_nonneg|lia]. Qed.

(** One increment of a value that stays below [m] uses up one step;
    an increment that reaches [m] had none left. *)
Lemma steps_below_inc p v m :
  1 ≤ v < 2 ^ 63 → m ≤ 2 ^ 63 →
  (value_after p v < m →
     steps_below p (value_after p v) m + 1 = steps_below p v m
     ∧ 1 ≤ value_after p v < 2 ^ 63)
  ∧ (m ≤ value_after p v → steps_below p v m = 0).
Proof.
  intros Hv Hm. change (2 ^ 63) with 9223372036854775808 in *.
  unfold value_after, steps_below. destruct p.
  - rewrite wrap_small by (rewrite uint_mod_eq; lia).
    rewrite (doublings_below_step v m)
      by (change (2 ^ 64) with 18446744073709551616; lia).
    destruct (v * 2 <? m) eqn:E;
      [apply Z.ltb_lt in E | apply Z.ltb_ge in E]; lia.
  - rewrite wrap_small by (rewrite uint_mod_eq; lia). lia.
Qed.

(** Doubling takes no more steps than counting by one. *)
Lemma doublings_below_le fuel : ∀ v m,
  1 ≤ v → doublings_below fuel v m ≤ Z.max 0 (m - 1 - v).
Proof.
  induction fuel as [|fuel IH]; intros v m Hv; simpl; [lia|].
  destruct (v * 2 <? m) eqn:E; [|lia]. apply Z.ltb_lt in E.
  specialize (IH (v * 2) m ltac:(lia)). lia.
Qed.

(** The range sizes are at most the spans between start and maximum:
    [MaxValue - start] values for a byte coefficient, which saturates
    on reaching [MaxValue], and [MaxValue - start + 1] for the length
    coefficient, which is done on exceeding it. *)
Lemma coefRange_le_span c :
  1 ≤ startOf c → coefRange c ≤ Z.max 1 (MaxValue c - startOf c).
Proof.
  intros Hs. unfold coefRange, steps_below. destruct (OnlyPow2 c); [|lia].
  pose proof (doublings_below_le 64 (startOf c) (MaxValue c) Hs). lia.
Qed.

Lemma lenRange_le_span c :
  1 ≤ startOf c → lenRange c ≤ Z.max 1 (MaxValue c - startOf c + 1).
Proof.
  intros Hs. unfold lenRange, steps_below. destruct (OnlyPow2 c); [|lia].
  pose proof (doublings_below_le 64 (startOf c) (MaxValue c + 1) Hs). lia.
Qed.

(** [init] and [Increment] leave the configuration of a coefficient
    alone, and [Increment] changes its value as [value_after] says. *)
Lemma Coef_init_fields c :
  MaxValue (Coef_init c) = MaxValue c ∧ StartValue (Coef_init c) = StartValue c
  ∧ OnlyPow2 (Coef_init c) = OnlyPow2 c ∧ IndexApplied (Coef_init c) = IndexApplied c
  ∧ Value (Coef_init c) = (if StartValue c =? 0 then 1 else StartValue c).
Proof.
  unfold Coef_init, set_Value, set_Op.
  destruct (StartValue c =? 0); simpl; destruct (CoefOp c =? opUndefined); simpl; done.
Qed.

Lemma Coef_Increment_fields c :
  MaxValue (Coef_Increment c) = MaxValue c ∧ StartValue (Coef_Increment c) = StartValue c
  ∧ OnlyPow2 (Coef_Increment c) = OnlyPow2 c ∧ IndexApplied (Coef_Increment c) = IndexApplied c
  ∧ CoefOp (Coef_Increment c) = CoefOp c
  ∧ Value (Coef_Increment c) = value_after (OnlyPow2 c) (Value c).
Proof. unfold Coef_Increment, value_after, set_Value. destruct (OnlyPow2 c); simpl; done. Qed.

Lemma startOf_init c : startOf (Coef_init c) = startOf c.
Proof.
  unfold startOf. destruct (Coef_init_fields (Coef_init c)) as (_ & _ & _ & _ & Hv).
  destruct (Coef_init_fields c) as (_ & Hs & _ & _ & Hv').
  rewrite Hv, Hs, Hv'. done.
Qed.

Lemma startOf_Increment c : startOf (Coef_Increment c) = startOf c.
Proof.
  unfold startOf. destruct (Coef_init_fields (Coef_Increment c)) as (_ & _ & _ & _ & Hv).
  destruct (Coef_init_fields c) as (_ & _ & _ & _ & Hv').
  destruct (Coef_Increment_fields c) as (_ & Hs & _).
  rewrite Hv, Hs, Hv'. done.
Qed.

Lemma coefRange_init c : coefRange (Coef_init c) = coefRange c.
Proof.
  unfold coefRange. rewrite startOf_init.
  destruct (Coef_init_fields c) as (-> & _ & -> & _). done.
Qed.

Lemma coefRange_Increment c : coefRange (Coef_Increment c) = coefRange c.
Proof.
  unfold coefRange. rewrite startOf_Increment.
  destruct (Coef_Increment_fields c) as (-> & _ & -> & _). done.
Qed.

Lemma lenRange_Increment c : lenRange (Coef_Increment c) = lenRange c.
Proof.
  unfold lenRange. rewrite startOf_Increment.
  destruct (Coef_Increment_fields c) as (-> & _ & -> & _). done.
Qed.

Lemma rangeFits_init c : rangeFits c → rangeFits (Coef_init c).
Proof.
  unfold rangeFits. destruct (Coef_init_fields c) as (-> & -> & _). done.
Qed.

Lemma rangeFits_Increment c : rangeFits c → rangeFits (Coef_Increment c).
Proof.
  unfold rangeFits. destruct (Coef_Increment_fields c) as (-> & -> & _). done.
Qed.

Lemma startOf_range c : rangeFits c → 1 ≤ startOf c < 2 ^ 63.
Proof.
  unfold rangeFits, startOf. destruct (Coef_init_fields c) as (_ & _ & _ & _ & ->).
  change (2 ^ 63) with 9223372036854775808.
  destruct (StartValue c =? 0) eqn:E; [lia|apply Z.eqb_neq in E; lia].
Qed.

Lemma stepsLeft_nonneg c : 0 ≤ stepsLeft c.
Proof. apply steps_below_nonneg. Qed.

Lemma coefRange_pos c : 1 ≤ coefRange c.
Proof. unfold coefRange. pose proof (steps_below_nonneg (OnlyPow2 c) (startOf c) (MaxValue c)). lia. Qed.

Lemma lenRange_pos c : 1 ≤ lenRange c.
Proof. unfold lenRange. pose proof (steps_below_nonneg (OnlyPow2 c) (startOf c) (MaxValue c + 1)). lia. Qed.

(** A re-initialised coefficient is at the top of its cycle. *)
Lemma digitOk_init c :
  rangeFits c → digitOk (Coef_init c) ∧ stepsLeft (Coef_init c) + 1 = coefRange c.
Proof.
  intros Hc. pose proof (startOf_range c Hc) as Hs.
  assert (stepsLeft (Coef_init c) + 1 = coefRange c) as Heq.
  { unfold stepsLeft, coefRange, startOf.
    destruct (Coef_init_fields c) as (-> & _ & -> & _). lia. }
  split; [|done]. split; [by apply rangeFits_init|]. split; [done|].
  rewrite coefRange_init. split; [lia|]. right. by rewrite startOf_init.
Qed.

(** An increment that does not saturate moves the coefficient one step
    down its cycle. *)
Lemma digitOk_Increment c :
  digitOk c → Coef_Saturated (Coef_Increment c) = false →
  digitOk (Coef_Increment c) ∧ stepsLeft (Coef_Increment c) + 1 = stepsLeft c.
Proof.
  intros (Hc & Hv & Hr & _) Hsat. unfold Coef_Saturated in Hsat. apply Z.leb_gt in Hsat.
  destruct (Coef_Increment_fields c) as (Hm & _ & Hp & _ & _ & Hval).
  assert (Value (Coef_Increment c) < MaxValue (Coef_Increment c)) as Hbelow by done.
  rewrite Hm, Hval in Hsat.
  destruct (steps_below_inc (OnlyPow2 c) (Value c) (MaxValue c)) as [Hlt _];
    [done|destruct Hc; lia|].
  destruct (Hlt Hsat) as [Heq Hrange].
  assert (stepsLeft (Coef_Increment c) + 1 = stepsLeft c) as Hstep.
  { unfold stepsLeft. rewrite Hm, Hp, Hval. done. }
  split; [|done]. split; [by apply rangeFits_Increment|].
  split; [by rewrite Hval|]. rewrite coefRange_Increment. split; [lia|by left].
Qed.

(** An increment that saturates came from the bottom of the cycle. *)
Lemma stepsLeft_saturating c :
  digitOk c → Coef_Saturated (Coef_Increment c) = true → stepsLeft c = 0.
Proof.
  intros (Hc & Hv & Hr & _) Hsat. unfold Coef_Saturated in Hsat. apply Z.leb_le in Hsat.
  destruct (Coef_Increment_fields c) as (Hm & _ & Hp & _ & _ & Hval).
  rewrite Hm, Hval in Hsat.
  destruct (steps_below_inc (OnlyPow2 c) (Value c) (MaxValue c)) as [_ Hge];
    [done|destruct Hc; lia|].
  unfold stepsLeft. auto.
Qed.

(** The same two facts for the length coefficient, whose limit is
    [Value > MaxValue]. *)
Lemma lenOk_Increment c :
  lenOk c → (MaxValue (Coef_Increment c) <? Value (Coef_Increment c)) = false →
  lenOk (Coef_Increment c) ∧ lenStepsLeft (Coef_Increment c) + 1 = lenStepsLeft c.
Proof.
  intros (Hc & Hv) Hdone. apply Z.ltb_ge in Hdone.
  destruct (Coef_Increment_fields c) as (Hm & _ & Hp & _ & _ & Hval).
  rewrite Hm, Hval in Hdone.
  destruct (steps_below_inc (OnlyPow2 c) (Value c) (MaxValue c + 1)) as [Hlt _];
    [done|destruct Hc; lia|].
  destruct Hlt as [Heq Hrange]; [lia|].
  split; [split; [by apply rangeFits_Increment|by rewrite Hval]|].
  unfold lenStepsLeft. rewrite Hm, Hp, Hval. done.
Qed.

Lemma lenStepsLeft_done c :
  lenOk c → (MaxValue (Coef_Increment c) <? Value (Coef_Increment c)) = true →
  lenStepsLeft c = 0.
Proof.
  intros (Hc & Hv) Hdone. apply Z.ltb_lt in Hdone.
  destruct (Coef_Increment_fields c) as (Hm & _ & Hp & _ & _ & Hval).
  rewrite Hm, Hval in Hdone.
  destruct (steps_below_inc (OnlyPow2 c) (Value c) (MaxValue c + 1)) as [_ Hge];
    [done|destruct Hc; lia|].
  unfold lenStepsLeft. apply Hge. lia.
Qed.

(** ** The byte coefficients as a mixed-radix counter *)

Lemma coefsSpace_pos coefs : 1 ≤ coefsSpace coefs.
Proof.
  induction coefs as [|c rest IH]; simpl; [lia|].
  pose proof (coefRange_pos c). nia.
Qed.

Lemma coefsLeft_range coefs :
  Forall digitOk coefs → 0 ≤ coefsLeft coefs < coefsSpace coefs.
Proof.
  induction 1 as [|c rest Hc _ IH]; simpl; [lia|].
  destruct Hc as (_ & _ & Hr & _). pose proof (stepsLeft_nonneg c).
  pose proof (coefRange_pos c). nia.
Qed.

Lemma coefsSpace_app front back :
  coefsSpace (front ++ back) = coefsSpace front * coefsSpace back.
Proof. induction front as [|c front IH]; simpl; [lia|]. rewrite IH. lia. Qed.

Lemma coefsLeft_app front back :
  coefsLeft (front ++ back) = coefsLeft front + coefsSpace front * coefsLeft back.
Proof. induction front as [|c front IH]; simpl; [lia|]. rewrite IH. lia. Qed.

Lemma nonempty_snoc {A : Type} (x : A) (l : list A) :
  ∃ front lst, x :: l = front ++ [lst].
Proof.
  revert x. induction l as [|y l IH]; intros x.
  - by exists [], x.
  - destruct (IH y) as (front & lst & ->). by exists (x :: front), lst.
Qed.

(** Whatever [init] and [Increment] preserve, the carry loop preserves. *)
Lemma carry_Forall (P : Coef → Prop) c rest :
  (∀ c, P c → P (Coef_init c)) → (∀ c, P c → P (Coef_Increment c)) →
  P c → Forall P rest → Forall P (carry c rest).
Proof.
  intros Hinit Hinc. revert c. induction rest as [|d ds IH]; intros c Hc Hrest; simpl.
  - by constructor.
  - inversion Hrest as [|? ? Hd Hds]; subst.
    destruct (Coef_Saturated c); constructor; auto.
Qed.

(** The carry loop, started after the increment of the first
    coefficient [c]: either it stops at an unsaturated coefficient and
    the counter has gone down by one, or every coefficient up to the
    last one saturated, the counter was at zero, and it restarts from
    the top once the last one is re-initialised. *)
Lemma carry_spec rest : ∀ c,
  digitOk c → Forall digitOk rest →
  ∃ front lst,
    carry (Coef_Increment c) rest = front ++ [lst]
    ∧ Forall digitOk front ∧ rangeFits lst
    ∧ coefsSpace front * coefRange lst = coefsSpace (c :: rest)
    ∧ ((digitOk lst
        ∧ coefsLeft front + coefsSpace front * stepsLeft lst + 1 = coefsLeft (c :: rest))
       ∨ (Coef_Saturated lst = true
          ∧ coefsLeft (c :: rest) = 0
          ∧ coefsLeft front + 1 = coefsSpace front)).
Proof.
  induction rest as [|d ds IH]; intros c Hc Hrest.
  - exists [], (Coef_Increment c). simpl.
    split; [done|]. split; [constructor|].
    split; [apply rangeFits_Increment, Hc|].
    split; [rewrite coefRange_Increment; lia|].
    destruct (Coef_Saturated (Coef_Increment c)) eqn:Hsat.
    + right. rewrite (stepsLeft_saturating c Hc Hsat). lia.
    + left. destruct (digitOk_Increment c Hc Hsat) as [Hok Hstep]. split; [done|lia].
  - inversion Hrest as [|? ? Hd Hds]; subst. simpl carry.
    destruct (Coef_Saturated (Coef_Increment c)) eqn:Hsat.
    + destruct (IH d Hd Hds) as (front & lst & Heq & Hfront & Hlst & Hspace & Hcases).
      pose proof (digitOk_init (Coef_Increment c) (rangeFits_Increment c (proj1 Hc)))
        as [Hok Htop].
      rewrite coefRange_Increment in Htop.
      pose proof (stepsLeft_saturating c Hc Hsat) as Hzero.
      exists (Coef_init (Coef_Increment c) :: front), lst.
      split; [by rewrite Heq|]. split; [by constructor|]. split; [done|].
      cbn [coefsSpace coefsLeft] in *.
      rewrite coefRange_init, coefRange_Increment.
      split; [rewrite <- Hspace; lia|].
      destruct Hcases as [[Hl Hleft]|(Hl & Hleft & Hfull)].
      * left. split; [done|]. rewrite Hzero, <- Hleft. nia.
      * right. split; [done|]. rewrite Hzero. split; [nia|]. nia.
    + destruct (digitOk_Increment c Hc Hsat) as [Hok Hstep].
      destruct (nonempty_snoc d ds) as (front & lst & Heq).
      rewrite Heq in Hrest |- *. apply Forall_app in Hrest as [Hfront Hlst].
      inversion Hlst as [|? ? Hl _]; subst.
      exists (Coef_Increment c :: front), lst.
      split; [done|]. split; [by constructor|]. split; [apply Hl|].
      cbn [coefsSpace coefsLeft]. rewrite coefsSpace_app, coefsLeft_app.
      cbn [coefsSpace coefsLeft]. rewrite coefRange_Increment.
      split; [lia|]. left. split; [done|]. nia.
Qed.

Lemma lookup_last_snoc {A : Type} (front : list A) (lst : A) :
  (front ++ [lst]) !! (length (front ++ [lst]) - 1)%nat = Some lst.
Proof.
  rewrite length_app. simpl.
  replace (length front + 1 - 1)%nat with (length front) by lia.
  apply list_lookup_middle. done.
Qed.

Lemma insert_last_snoc {A : Type} (front : list A) (lst x : A) :
  <[(length (front ++ [lst]) - 1)%nat := x]> (front ++ [lst]) = front ++ [x].
Proof.
  rewrite length_app. simpl.
  replace (length front + 1 - 1)%nat with (length front + 0)%nat by lia.
  by rewrite insert_app_r.
Qed.

(** ** The family as a counter *)

Lemma digitOk_not_saturated c :
  digitOk c → startOf c < MaxValue c → Coef_Saturated c = false.
Proof.
  intros (_ & _ & _ & Hv) Hs. unfold Coef_Saturated. apply Z.leb_gt. lia.
Qed.

Lemma Increment_spec hs :
  familyOk hs →
  ∃ hs' done,
    HashSequential_Increment hs = Some (hs', done)
    ∧ coefsSpace (Coefs hs') = coefsSpace (Coefs hs)
    ∧ (done = false → familyOk hs' ∧ familyLeft hs' < familyLeft hs)
    ∧ (regular hs →
       (done = false → regular hs' ∧ familyLeft hs' + 1 = familyLeft hs)
       ∧ (done = true → familyLeft hs = 0)).
Proof.
  intros (Hcoefs & Hne & Hlen). unfold HashSequential_Increment, familyLeft, regular.
  destruct (Coefs hs) as [|c rest] eqn:Ecoefs; [done|].
  inversion Hcoefs as [|? ? Hc Hrest]; subst.
  destruct (carry_spec rest c Hc Hrest)
    as (front & lst & Heq & Hfront & Hlst & Hspace & Hcases).
  assert (Forall (λ c, startOf c < MaxValue c) (c :: rest) →
          Forall (λ c, startOf c < MaxValue c) (front ++ [lst])) as Hreg.
  { intros Hall. inversion Hall as [|? ? Hc' Hrest']; subst. rewrite <- Heq.
    apply carry_Forall; [| |by rewrite startOf_Increment;
      destruct (Coef_Increment_fields c) as (-> & _)|done].
    - intros x. rewrite startOf_init. by destruct (Coef_init_fields x) as (-> & _).
    - intros x. rewrite startOf_Increment.
      by destruct (Coef_Increment_fields x) as (-> & _). }
  rewrite Heq, lookup_last_snoc. cbn [mbind option_bind].
  pose proof (coefsLeft_range front Hfront) as Hfr.
  pose proof (coefsSpace_pos front) as Hfp.
  pose proof (coefRange_pos lst) as Hlp.
  pose proof (steps_below_nonneg (OnlyPow2 (LenCoef hs)) (Value (LenCoef hs))
                (MaxValue (LenCoef hs) + 1)) as Hln.
  fold (lenStepsLeft (LenCoef hs)) in Hln.
  destruct (digitOk_init lst Hlst) as [Hinit Htop].
  destruct (Coef_Saturated lst) eqn:Hsat.
  - (* the last coefficient is saturated: it is reset and the length
       coefficient is incremented *)
    rewrite insert_last_snoc.
    eexists _, _. split; [reflexivity|]. cbn [Coefs LenCoef].
    assert (coefsSpace (front ++ [Coef_init lst]) = coefsSpace (c :: rest)) as Hsp.
    { rewrite <- Hspace, coefsSpace_app. cbn [coefsSpace]. rewrite coefRange_init. lia. }
    assert (Forall digitOk (front ++ [Coef_init lst])) as Hall.
    { apply Forall_app. split; [done|]. by constructor. }
    pose proof (coefsLeft_range _ Hall) as Hnew. rewrite Hsp in Hnew.
    pose proof (coefsLeft_range _ Hcoefs) as Hold.
    split; [done|]. split.
    + intros Hdone. destruct (lenOk_Increment _ Hlen Hdone) as [Hlen' Hstep].
      split; [split; [done|split; [by destruct front|done]]|].
      rewrite Hsp. nia.
    + intros [Hall' Hle]. specialize (Hreg Hall').
      destruct Hcases as [[Hl _]|(_ & Hzero & Hfull)].
      { apply Forall_app in Hreg as [_ Hreg]. inversion Hreg; subst.
        by rewrite (digitOk_not_saturated lst) in Hsat. }
      split.
      * intros Hdone. destruct (lenOk_Increment _ Hlen Hdone) as [Hlen' Hstep].
        split.
        -- split; [|by apply Z.ltb_ge in Hdone].
           apply Forall_app in Hreg as [Hr1 Hr2]. apply Forall_app. split; [done|].
           constructor; [|done]. inversion Hr2; subst.
           rewrite startOf_init. by destruct (Coef_init_fields lst) as (-> & _).
        -- rewrite Hsp, Hzero, coefsLeft_app, <- Hspace. cbn [coefsLeft].
           nia.
      * intros Hdone. rewrite (lenStepsLeft_done _ Hlen Hdone), Hzero. lia.
  - (* the last coefficient is not saturated: the length coefficient
       is left alone *)
    eexists _, _. split; [reflexivity|]. cbn [Coefs LenCoef].
    destruct Hcases as [[Hl Hleft]|(Hs & _)]; [|congruence].
    assert (coefsSpace (front ++ [lst]) = coefsSpace (c :: rest)) as Hsp.
    { rewrite <- Hspace, coefsSpace_app. cbn [coefsSpace]. lia. }
    assert (coefsLeft (front ++ [lst]) + 1 = coefsLeft (c :: rest)) as Hdec.
    { rewrite <- Hleft, coefsLeft_app. cbn [coefsLeft coefsSpace]. lia. }
    split; [done|]. split.
    + intros _. split.
      * split; [apply Forall_app; split; [done|by constructor]|].
        split; [by destruct front|done].
      * rewrite Hsp. lia.
    + intros [Hall' Hle]. split.
      * intros _. split; [split; [by apply Hreg|done]|]. rewrite Hsp. lia.
      * intros Hdone. apply Z.ltb_lt in Hdone. lia.
Qed.

(** ** The scratch table *)

Lemma tableSize_valid b : 0 < b ≤ 32 → tableSize b = 2 ^ b.
Proof.
  intros Hb. unfold tableSize. rewrite Z.shiftl_1_l.
  apply int_wrap_small. unfold int_min, int_max.
  change (2 ^ (uint_bits - 1)) with (2 ^ 63).
  assert (2 ^ b ≤ 2 ^ 32) by (apply Z.pow_le_mono_r; lia).
  assert (0 < 2 ^ b) by (apply Z.pow_pos_nonneg; lia).
  change (2 ^ 32) with 4294967296 in *. change (2 ^ 63) with 9223372036854775808. lia.
Qed.

Lemma tableMask_valid b : 0 < b ≤ 32 → tableMask b = 2 ^ b - 1.
Proof.
  intros Hb. unfold tableMask, uint_of_int. rewrite (tableSize_valid b Hb).
  assert (2 ^ b ≤ 2 ^ 32) by (apply Z.pow_le_mono_r; lia).
  assert (0 < 2 ^ b) by (apply Z.pow_pos_nonneg; lia).
  change (2 ^ 32) with 4294967296 in *.
  rewrite (wrap_small (2 ^ b)) by (rewrite uint_mod_eq; lia).
  apply wrap_small. rewrite uint_mod_eq. lia.
Qed.

Lemma growTable_length hashmap tblsz :
  length (growTable hashmap tblsz) = Z.to_nat tblsz.
Proof. unfold growTable. rewrite length_app, length_take, length_replicate. lia. Qed.

Lemma clearTable_length hashmap : length (clearTable hashmap) = length hashmap.
Proof. unfold clearTable. apply length_replicate. Qed.

Lemma clearTable_lookup hashmap i :
  (i < length hashmap)%nat → clearTable hashmap !! i = Some 0.
Proof. intros Hi. unfold clearTable. by apply lookup_replicate_2. Qed.

(** A masked value is an index of the table of [2^b] slots. *)
Lemma land_mask_range h b : 0 ≤ b → 0 ≤ Z.land h (2 ^ b - 1) < 2 ^ b.
Proof.
  intros Hb. replace (2 ^ b - 1) with (Z.ones b) by (rewrite Z.ones_equiv; lia).
  rewrite Z.land_ones by done. apply Z.mod_pos_bound. by apply Z.pow_pos_nonneg.
Qed.

(** ** One attempt *)

Section AttemptFacts.
Context {H : Type} `{Hash H}.
Variable hasher : H.
Variable b : Z.
Hypothesis b_nonneg : 0 ≤ b.

#[local] Abbreviation mask := (2 ^ b - 1).
#[local] Abbreviation slots := (Z.to_nat (2 ^ b)).

Lemma tableIndex_range kw i :
  tableIndex hasher mask kw = Some i → 0 ≤ i < 2 ^ b ∧ (Z.to_nat i < slots)%nat.
Proof using b_nonneg.
  unfold tableIndex. destruct (Hash_Hash hasher kw) as [h|]; [|done].
  intros [= <-]. pose proof (land_mask_range h b b_nonneg). lia.
Qed.

Lemma placeInputs_length inputs : ∀ t ok t',
  placeInputs hasher mask t inputs = Some (ok, t') → length t' = length t.
Proof.
  induction inputs as [|kw rest IH]; intros t ok t'; simpl.
  - by intros [= _ <-].
  - destruct (tableIndex hasher mask kw) as [i|]; [|done]. simpl.
    destruct (t !! Z.to_nat i) as [tok|]; [|done]. simpl.
    destruct (tok =? 0); simpl.
    + intros Hrest. apply IH in Hrest. by rewrite length_insert in Hrest.
    + by intros [= _ <-].
Qed.

(** An attempt that succeeds has put every input in a slot of its
    own. *)
Lemma placeInputs_success inputs : ∀ t t',
  placeInputs hasher mask t inputs = Some (true, t') →
  ∃ idxs,
    Forall2 (λ kw i, tableIndex hasher mask kw = Some i) inputs idxs
    ∧ NoDup idxs
    ∧ Forall (λ i, 0 ≤ i ∧ t !! Z.to_nat i = Some 0) idxs.
Proof using b_nonneg.
  induction inputs as [|kw rest IH]; intros t t'; simpl.
  - intros _. exists []. repeat split; constructor.
  - destruct (tableIndex hasher mask kw) as [i|] eqn:Hi; [|done]. simpl.
    destruct (t !! Z.to_nat i) as [tok|] eqn:Htok; [|done]. simpl.
    destruct (tok =? 0) eqn:Hzero; simpl; [|done].
    apply Z.eqb_eq in Hzero. subst tok.
    intros Hrest. destruct (IH _ _ Hrest) as (idxs & Hall & Hnd & Hfree).
    pose proof (tableIndex_range kw i Hi) as [Hrange _].
    pose proof (lookup_lt_Some _ _ _ Htok) as Hlt.
    exists (i :: idxs). split; [by constructor|]. split.
    + constructor; [|done]. intros Hin.
      rewrite Forall_forall in Hfree. destruct (Hfree i Hin) as [_ Hfree'].
      rewrite list_lookup_insert_eq in Hfree' by done. done.
    + constructor; [split; [lia|done]|].
      rewrite Forall_forall in Hfree |- *. intros j Hj.
      destruct (Hfree j Hj) as [Hj0 Hfree']. split; [done|].
      destruct (decide (i = j)) as [->|Hne].
      * rewrite list_lookup_insert_eq in Hfree' by done. done.
      * rewrite list_lookup_insert_ne in Hfree' by lia. done.
Qed.

(** An attempt over inputs that can all be hashed does not panic. *)
Lemma placeInputs_total inputs : ∀ t,
  Forall (λ kw, is_Some (Hash_Hash hasher kw)) inputs → length t = slots →
  ∃ ok t', placeInputs hasher mask t inputs = Some (ok, t').
Proof using b_nonneg.
  induction inputs as [|kw rest IH]; intros t Hall Hlen; simpl.
  - by eexists _, _.
  - inversion Hall as [|? ? [h Hh] Hrest]; subst.
    destruct (tableIndex hasher mask kw) as [i|] eqn:Hi;
      [|unfold tableIndex in Hi; by rewrite Hh in Hi].
    simpl. pose proof (tableIndex_range kw i Hi) as [_ Hlt].
    destruct (lookup_lt_is_Some_2 t (Z.to_nat i)) as [tok ->]; [lia|]. simpl.
    destruct (tok =? 0); simpl; [|by eexists _, _].
    apply IH; [done|]. by rewrite length_insert.
Qed.

(** An input whose slot is already taken makes the attempt fail. *)
Lemma placeInputs_blocked inputs : ∀ t kw i tok,
  Forall (λ kw, is_Some (Hash_Hash hasher kw)) inputs → length t = slots →
  kw ∈ inputs → tableIndex hasher mask kw = Some i →
  t !! Z.to_nat i = Some tok → tok ≠ 0 →
  ∃ t', placeInputs hasher mask t inputs = Some (false, t').
Proof using b_nonneg.
  induction inputs as [|kw0 rest IH]; intros t kw i tok Hall Hlen Hin Hi Htok Hne.
  - by apply elem_of_nil in Hin.
  - inversion Hall as [|? ? [h Hh] Hrest]; subst. simpl.
    destruct (tableIndex hasher mask kw0) as [i0|] eqn:Hi0;
      [|unfold tableIndex in Hi0; by rewrite Hh in Hi0].
    simpl. pose proof (tableIndex_range kw0 i0 Hi0) as [Hr0 Hlt0].
    destruct (lookup_lt_is_Some_2 t (Z.to_nat i0)) as [tok0 Htok0]; [lia|].
    rewrite Htok0. simpl.
    destruct (tok0 =? 0) eqn:Hzero; simpl; [|by eexists].
    apply Z.eqb_eq in Hzero. subst tok0.
    apply elem_of_cons in Hin as [->|Hin]; [congruence|].
    pose proof (tableIndex_range kw i Hi) as [Hr _].
    destruct (decide (i0 = i)) as [->|Hdiff].
    + apply (IH _ kw i 1); [done|by rewrite length_insert|done|done| |done].
      apply list_lookup_insert_eq. lia.
    + apply (IH _ kw i tok); [done|by rewrite length_insert|done|done| |done].
      rewrite list_lookup_insert_ne by lia. done.
Qed.

(** A repeated input makes the attempt fail, whatever the table
    holds. *)
Lemma placeInputs_duplicate inputs : ∀ t,
  Forall (λ kw, is_Some (Hash_Hash hasher kw)) inputs → length t = slots →
  ¬ NoDup inputs →
  ∃ t', placeInputs hasher mask t inputs = Some (false, t').
Proof using b_nonneg.
  induction inputs as [|kw rest IH]; intros t Hall Hlen Hdup.
  - destruct Hdup. constructor.
  - inversion Hall as [|? ? [h Hh] Hrest]; subst. simpl.
    destruct (tableIndex hasher mask kw) as [i|] eqn:Hi;
      [|unfold tableIndex in Hi; by rewrite Hh in Hi].
    simpl. pose proof (tableIndex_range kw i Hi) as [Hr Hlt].
    destruct (lookup_lt_is_Some_2 t (Z.to_nat i)) as [tok Htok]; [lia|].
    rewrite Htok. simpl.
    destruct (tok =? 0) eqn:Hzero; simpl; [|by eexists].
    destruct (decide (kw ∈ rest)) as [Hin|Hnotin].
    + apply (placeInputs_blocked rest _ kw i 1);
        [done|by rewrite length_insert|done|done| |done].
      apply list_lookup_insert_eq. lia.
    + apply IH; [done|by rewrite length_insert|].
      intros Hnd. apply Hdup. by constructor.
Qed.
End AttemptFacts.

(** ** The attempt loop, for any hasher *)

Section LoopFacts.
Context {H : Type} `{Hash H}.
Variable b : Z.
Variable inputs : list string.

#[local] Abbreviation mask := (2 ^ b - 1).

(** More fuel does not change what the loop returns. *)
Lemma searchLoop_more_fuel fuel : ∀ extra hasher t a r,
  searchLoop fuel hasher mask t inputs a = Returns r →
  searchLoop (fuel + extra) hasher mask t inputs a = Returns r.
Proof.
  induction fuel as [|fuel IH]; intros extra hasher t a r; [done|].
  simpl. destruct (placeInputs hasher mask (clearTable t) inputs) as [[[] t1]|];
    [done| |done].
  destruct (Hash_Increment hasher) as [[h' []]|]; [done| |done].
  apply IH.
Qed.

(** A successful return comes from the attempt whose number is
    returned: the hasher was advanced once after each of the failed
    attempts before it and not after the one that succeeded. *)
Lemma searchLoop_success fuel : ∀ hasher t a r,
  searchLoop fuel hasher mask t inputs a = Returns r → err r = None →
  ∃ n : nat,
    attempts r = a + 1 + Z.of_nat n
    ∧ advance n hasher = Some (hasher_after r)
    ∧ placeInputs (hasher_after r) mask (replicate (length t) 0) inputs
      = Some (true, hashmap (finder_after r))
    ∧ ∀ (k : nat) hk, (k < n)%nat → advance k hasher = Some hk →
        ∃ t', placeInputs hk mask (replicate (length t) 0) inputs = Some (false, t').
Proof.
  induction fuel as [|fuel IH]; intros hasher t a r; [done|].
  simpl. fold (clearTable t).
  destruct (placeInputs hasher mask (clearTable t) inputs) as [[[] t1]|] eqn:Hplace;
    [| |done].
  - intros [= <-] _. exists 0%nat. simpl. split; [lia|]. split; [done|].
    split; [done|]. intros k hk Hk. lia.
  - destruct (Hash_Increment hasher) as [[h' fin]|] eqn:Hinc; [|done].
    destruct fin; [by intros [= <-]|].
    intros Hloop Herr.
    destruct (IH _ _ _ _ Hloop Herr) as (n & Hn & Hadv & Hok & Hfail).
    pose proof (placeInputs_length hasher b inputs _ _ _ Hplace) as Hlen.
    rewrite clearTable_length in Hlen. rewrite Hlen in Hok, Hfail.
    exists (S n). split; [lia|].
    split; [by simpl; rewrite Hinc|]. split; [done|].
    intros [|k] hk Hk; simpl.
    + intros [= <-]. by eexists.
    + rewrite Hinc. apply Hfail. lia.
Qed.

(** A hasher that [Increment] leaves as it is, without reporting
    done, and on which the attempt fails, keeps the loop running. *)
Lemma searchLoop_stuck hasher (n : nat) :
  Hash_Increment hasher = Some (hasher, false) →
  (∃ t', placeInputs hasher mask (replicate n 0) inputs = Some (false, t')) →
  ∀ fuel t a, length t = n → searchLoop fuel hasher mask t inputs a = OutOfFuel.
Proof.
  intros Hinc [t' Hplace]. induction fuel as [|fuel IH]; intros t a Hlen; [done|].
  simpl. unfold clearTable. rewrite Hlen, Hplace, Hinc. apply IH.
  pose proof (placeInputs_length hasher b inputs _ _ _ Hplace) as Hlen'.
  by rewrite length_replicate in Hlen'.
Qed.
End LoopFacts.

(** ** Evaluation of the sequential family *)

Lemma get_is_Some s : ∀ n, (n < String.length s)%nat → is_Some (String.get n s).
Proof.
  induction s as [|a s IH]; intros n Hn; simpl in *; [lia|].
  destruct n as [|n]; [by eexists|]. apply IH. lia.
Qed.

Lemma byteAt_is_Some s i : 0 ≤ i < len s → is_Some (byteAt s i).
Proof.
  intros Hi. unfold byteAt.
  destruct (i <? 0) eqn:E1; [apply Z.ltb_lt in E1; lia|].
  destruct (len s <=? i) eqn:E2; [apply Z.leb_le in E2; lia|]. simpl.
  destruct (get_is_Some s (Z.to_nat i)) as [ch Hch]; [unfold len in Hi; lia|].
  rewrite Hch. by eexists.
Qed.

Lemma int_neg_small idx : int_min < idx ≤ int_max → int_neg idx = - idx.
Proof.
  intros Hidx. unfold int_neg. apply int_wrap_small.
  unfold int_min, int_max in *. lia.
Qed.

Lemma Coef_Apply_total c h kw : applyOk c → is_Some (Coef_Apply c h kw).
Proof.
  intros [Hidx Hop]. unfold Coef_Apply. rewrite (int_neg_small _ Hidx).
  pose proof (len_nonneg kw) as Hlen.
  assert (∀ a, is_Some (if CoefOp c =? OpAdd then Some (wrap (h + a))
                        else if CoefOp c =? OpXor then Some (Z.lxor h a)
                        else if CoefOp c =? OpMul then Some (wrap (h * a))
                        else None)) as Hcomb.
  { intros a. destruct Hop as [-> | [-> | ->]]; by eexists. }
  destruct (IndexApplied c <? 0) eqn:E1; simpl.
  - apply Z.ltb_lt in E1.
    destruct (- IndexApplied c <=? len kw) eqn:E2; simpl.
    + apply Z.leb_le in E2.
      destruct (byteAt_is_Some kw (len kw + IndexApplied c)) as [x ->]; [lia|].
      simpl. apply Hcomb.
    + destruct (0 <=? IndexApplied c) eqn:E3; [apply Z.leb_le in E3; lia|].
      simpl. apply Hcomb.
  - apply Z.ltb_ge in E1.
    destruct (0 <=? IndexApplied c) eqn:E3; [|apply Z.leb_gt in E3; lia]. simpl.
    destruct (IndexApplied c <? len kw) eqn:E4; simpl.
    + apply Z.ltb_lt in E4.
      destruct (byteAt_is_Some kw (IndexApplied c)) as [x ->]; [lia|].
      simpl. apply Hcomb.
    + apply Hcomb.
Qed.

Lemma apply_all_total coefs kw : ∀ h,
  Forall applyOk coefs → is_Some (apply_all coefs h kw).
Proof.
  induction coefs as [|c rest IH]; intros h Hall; simpl; [by eexists|].
  inversion Hall as [|? ? Hc Hrest]; subst.
  destruct (Coef_Apply_total c h kw Hc) as [h' ->]. simpl. by apply IH.
Qed.

Lemma HashSequential_Hash_total hs kw :
  Forall applyOk (Coefs hs) → is_Some (HashSequential_Hash hs kw).
Proof. intros Hall. unfold HashSequential_Hash. by apply apply_all_total. Qed.

Lemma applyOk_init c : applyOk c → applyOk (Coef_init c).
Proof.
  intros [Hidx Hop]. unfold applyOk.
  destruct (Coef_init_fields c) as (_ & _ & _ & -> & _). split; [done|].
  unfold Coef_init, set_Value, set_Op.
  destruct (StartValue c =? 0); simpl;
    destruct Hop as [-> | [-> | ->]]; simpl; auto.
Qed.

Lemma applyOk_Increment c : applyOk c → applyOk (Coef_Increment c).
Proof.
  unfold applyOk. by destruct (Coef_Increment_fields c) as (_ & _ & _ & -> & -> & _).
Qed.

(** Whatever [init] and [Increment] preserve on the byte coefficients,
    the family's [Increment] preserves. *)
Lemma Increment_Forall (P : Coef → Prop) hs hs' fin :
  (∀ c, P c → P (Coef_init c)) → (∀ c, P c → P (Coef_Increment c)) →
  HashSequential_Increment hs = Some (hs', fin) →
  Forall P (Coefs hs) → Forall P (Coefs hs').
Proof.
  intros Hinit Hinc. unfold HashSequential_Increment.
  destruct (Coefs hs) as [|c rest]; [done|]. intros Hstep Hall.
  inversion Hall as [|? ? Hc Hrest]; subst.
  pose proof (carry_Forall P (Coef_Increment c) rest Hinit Hinc (Hinc _ Hc) Hrest) as Hout.
  destruct (carry (Coef_Increment c) rest !! _) as [lst|] eqn:Hlst; [|done].
  simpl in Hstep. assert (P lst) as Hl.
  { rewrite Forall_forall in Hout. apply Hout. by eapply list_elem_of_lookup_2. }
  destruct (Coef_Saturated lst); injection Hstep as <- _; simpl; [|done].
  apply Forall_insert; auto.
Qed.

(** ** The attempt loop over the sequential family *)

Lemma familyLeft_nonneg hs : familyOk hs → 0 ≤ familyLeft hs.
Proof.
  intros (Hcoefs & _ & _). unfold familyLeft.
  pose proof (coefsLeft_range _ Hcoefs). pose proof (coefsSpace_pos (Coefs hs)).
  pose proof (steps_below_nonneg (OnlyPow2 (LenCoef hs)) (Value (LenCoef hs))
                (MaxValue (LenCoef hs) + 1)) as Hl.
  fold (lenStepsLeft (LenCoef hs)) in Hl. nia.
Qed.

Lemma hashable_inputs hs (inputs : list string) :
  Forall applyOk (Coefs hs) →
  Forall (λ kw, is_Some (Hash_Hash hs kw)) inputs.
Proof.
  intros Hall. apply Forall_forall. intros kw _.
  by apply HashSequential_Hash_total.
Qed.

Section SequentialLoop.
Variable b : Z.
Hypothesis b_nonneg : 0 ≤ b.
Variable inputs : list string.

(** The loop returns within [familyLeft hs + 1] attempts. *)
Lemma searchLoop_terminates (n : nat) : ∀ hs t a,
  familyOk hs → Forall applyOk (Coefs hs) → length t = Z.to_nat (2 ^ b) →
  familyLeft hs ≤ Z.of_nat n →
  ∃ r, searchLoop (S n) hs (2 ^ b - 1) t inputs a = Returns r
       ∧ a + 1 ≤ attempts r ≤ a + 1 + familyLeft hs
       ∧ (err r = None ∨ err r = Some ErrNoCoefficientsFound).
Proof using b_nonneg.
  induction n as [|n IH]; intros hs t a Hok Happly Hlen Hleft;
    pose proof (familyLeft_nonneg hs Hok) as Hnn;
    (destruct (placeInputs_total hs b b_nonneg inputs (clearTable t))
      as (ok & t1 & Hplace);
      [by apply hashable_inputs|by rewrite clearTable_length|]);
    destruct (Increment_spec hs Hok) as (hs' & fin & Hinc & _ & Hstep & _);
    cbn [searchLoop]; rewrite Hplace; destruct ok;
    try (eexists; split; [reflexivity|]; simpl; split; [lia|by left]);
    cbn [Hash_Increment HashSequential_Hash_impl]; rewrite Hinc;
    destruct fin;
    try (eexists; split; [reflexivity|]; simpl; split; [lia|by right]);
    destruct (Hstep eq_refl) as [Hok' Hless].
  - pose proof (familyLeft_nonneg hs' Hok'). lia.
  - pose proof (placeInputs_length hs b inputs _ _ _ Hplace) as Hlen1.
    rewrite clearTable_length in Hlen1.
    destruct (IH hs' t1 (a + 1)) as (r & Hr & Hatt & Herr);
      [done|by eapply Increment_Forall; eauto using applyOk_init, applyOk_Increment
      |congruence|lia|].
    exists r. split; [done|]. split; [lia|done].
Qed.

(** With a repeated input every attempt fails, and a regular family
    makes exactly [familyLeft hs + 1] attempts. *)
Lemma searchLoop_exhausts (n : nat) : ∀ hs t a,
  familyOk hs → regular hs → Forall applyOk (Coefs hs) →
  length t = Z.to_nat (2 ^ b) → ¬ NoDup inputs →
  familyLeft hs = Z.of_nat n →
  ∃ r, searchLoop (S n) hs (2 ^ b - 1) t inputs a = Returns r
       ∧ attempts r = a + 1 + familyLeft hs
       ∧ err r = Some ErrNoCoefficientsFound.
Proof using b_nonneg.
  induction n as [|n IH]; intros hs t a Hok Hreg Happly Hlen Hdup Hleft;
    (destruct (placeInputs_duplicate hs b b_nonneg inputs (clearTable t))
      as (t1 & Hplace);
      [by apply hashable_inputs|by rewrite clearTable_length|done|]);
    destruct (Increment_spec hs Hok) as (hs' & fin & Hinc & _ & Hstep & Hexact);
    destruct (Hexact Hreg) as [Hgo Hend];
    cbn [searchLoop]; rewrite Hplace;
    cbn [Hash_Increment HashSequential_Hash_impl]; rewrite Hinc;
    destruct fin.
  - eexists; split; [reflexivity|]. simpl. split; [lia|done].
  - destruct (Hgo eq_refl) as [_ Hone]. destruct (Hstep eq_refl) as [Hok' _].
    pose proof (familyLeft_nonneg hs' Hok'). lia.
  - specialize (Hend eq_refl). lia.
  - destruct (Hgo eq_refl) as [Hreg' Hone]. destruct (Hstep eq_refl) as [Hok' _].
    pose proof (placeInputs_length hs b inputs _ _ _ Hplace) as Hlen1.
    rewrite clearTable_length in Hlen1.
    destruct (IH hs' t1 (a + 1)) as (r & Hr & Hatt & Herr);
      [done|done|by eapply Increment_Forall; eauto using applyOk_init, applyOk_Increment
      |congruence|done|lia|].
    exists r. split; [done|]. split; [lia|done].
Qed.
End SequentialLoop.

(** ** Configured families *)

Lemma Coef_config_ok c defaultMax c' :
  Coef_config c defaultMax = (c', None) → coefConfigured c'.
Proof.
  unfold Coef_config, coefConfigured.
  assert (CoefOp (Coef_init c) ≠ opUndefined) as Hop.
  { unfold Coef_init, set_Value, set_Op.
    destruct (StartValue c =? 0); simpl;
      destruct (CoefOp c =? opUndefined) eqn:E; simpl;
      try done; by apply Z.eqb_neq in E. }
  destruct (MaxValue (Coef_init c) =? 0) eqn:Hmax.
  - destruct (defaultMax <=? 0) eqn:Hd; [done|]. apply Z.leb_gt in Hd.
    intros [= <-]. split; [|split; [simpl; lia|done]].
    unfold startOf.
    destruct (Coef_init_fields (set_MaxValue (Coef_init c) defaultMax))
      as (_ & _ & _ & _ & ->).
    destruct (Coef_init_fields c) as (_ & Hs & _ & _ & Hv). simpl.
    by rewrite Hs, Hv.
  - intros [= <-]. apply Z.eqb_neq in Hmax. split; [by rewrite startOf_init|done].
Qed.

Lemma config_all_ok coefs defaultMax : ∀ coefs',
  config_all coefs defaultMax = (coefs', None) → Forall coefConfigured coefs'.
Proof.
  induction coefs as [|c rest IH]; intros coefs'; simpl.
  - intros [= <-]. constructor.
  - destruct (Coef_config c defaultMax) as [c' [e|]] eqn:Hc; [done|].
    destruct (config_all rest defaultMax) as [rest' e'] eqn:Hrest.
    intros [= <- ->]. constructor; [by eapply Coef_config_ok|by apply IH].
Qed.

Lemma ConfigCoefs_configured hs defaultMax hs' :
  HashSequential_ConfigCoefs hs defaultMax = (hs', None) → configured hs'.
Proof.
  unfold HashSequential_ConfigCoefs.
  destruct (config_all (Coefs hs) defaultMax) as [coefs [e|]] eqn:Hcoefs; [done|].
  destruct (Coef_config (LenCoef hs) defaultMax) as [l e] eqn:Hl.
  intros [= <- ->]. split; simpl; [by eapply config_all_ok|by eapply Coef_config_ok].
Qed.

(** A configured coefficient is at the top of its cycle. *)
Lemma configured_digitOk c :
  coefConfigured c → rangeFits c → digitOk c ∧ stepsLeft c + 1 = coefRange c.
Proof.
  intros (Hv & _) Hc. pose proof (startOf_range c Hc) as Hs.
  assert (stepsLeft c + 1 = coefRange c) as Heq.
  { unfold stepsLeft, coefRange. rewrite Hv. lia. }
  split; [|done]. split; [done|]. split; [lia|]. split; [lia|by right].
Qed.

Lemma configured_coefsLeft coefs :
  Forall coefConfigured coefs → Forall rangeFits coefs →
  Forall digitOk coefs ∧ coefsLeft coefs + 1 = coefsSpace coefs.
Proof.
  induction 1 as [|c rest Hc _ IH]; intros Hfit; simpl; [split; [constructor|lia]|].
  inversion Hfit as [|? ? Hfc Hfrest]; subst.
  destruct (IH Hfrest) as [Hall Hleft].
  destruct (configured_digitOk c Hc Hfc) as [Hok Htop].
  split; [by constructor|]. nia.
Qed.

(** A configured family has the whole search space in front of it. *)
Lemma configured_familyOk hs :
  configured hs → noWrap hs → Coefs hs ≠ [] →
  familyOk hs ∧ familyLeft hs + 1 = searchSpace hs.
Proof.
  intros [Hcoefs Hlen] [Hfit Hfitl] Hne.
  destruct (configured_coefsLeft _ Hcoefs Hfit) as [Hall Hleft].
  pose proof (startOf_range _ Hfitl) as Hs. destruct Hlen as (Hv & _).
  split.
  - split; [done|]. split; [done|]. split; [done|lia].
  - unfold familyLeft, searchSpace, lenStepsLeft, lenRange. rewrite Hv. nia.
Qed.

Lemma configured_regular hs : configured hs → startsInRange hs → regular hs.
Proof. intros [_ (Hv & _)] [Hall Hl]. split; [done|lia]. Qed.

(** * The claims *)

(** C1.  When [Search] over a sequential family returns a nil error,
    the coefficient values the family holds at return are a perfect
    hash of the inputs: every input hashes, and the indices
    [Hash(kw) & (2^tableSizeBits - 1)] are pairwise distinct; the
    returned attempt count [n + 1] is the number of the attempt that
    succeeded: the family at return is the given one advanced exactly
    [n] times, once after each of the [n] attempts that failed, and
    not after the successful one.  (A nil error is returned only for
    [tableSizeBits] in (0,32] and a non-empty input list.) *)
Theorem Search_success_is_perfect_hash (hs : HashSequential) (fuel : nat)
    (phf : HashFinder) (bits : Z) (inputs : list string)
    (r : SearchResult HashSequential) :
  HashFinder_Search fuel phf hs bits inputs = Returns r → err r = None →
  (0 < bits ≤ 32 ∧ inputs ≠ [])
  ∧ (∃ idxs,
       Forall2 (λ kw i, ∃ h, HashSequential_Hash (hasher_after r) kw = Some h
                             ∧ i = Z.land h (2 ^ bits - 1)) inputs idxs
       ∧ NoDup idxs)
  ∧ ∃ n : nat,
      attempts r = Z.of_nat n + 1
      ∧ advance n hs = Some (hasher_after r)
      ∧ ∀ (k : nat) hk, (k < n)%nat → advance k hs = Some hk →
          attemptFails hk bits inputs.
Proof.
  unfold HashFinder_Search.
  destruct (bits <=? 0) eqn:E1; simpl; [by intros [= <-]|].
  destruct (32 <? bits) eqn:E2; simpl; [by intros [= <-]|].
  apply Z.leb_gt in E1. apply Z.ltb_ge in E2.
  destruct (length inputs =? 0)%nat eqn:E3; [by intros [= <-]|].
  apply Nat.eqb_neq in E3.
  rewrite (tableMask_valid bits) by lia. intros Hloop Herr.
  destruct (searchLoop_success bits inputs fuel _ _ _ _ Hloop Herr)
    as (n & Hn & Hadv & Hok & Hfail).
  rewrite growTable_length, (tableSize_valid bits) in Hok, Hfail by lia.
  split; [split; [lia|by destruct inputs]|]. split.
  - destruct (placeInputs_success (hasher_after r) bits ltac:(lia) inputs _ _ Hok)
      as (idxs & Hall & Hnd & _).
    exists idxs. split; [|done].
    eapply Forall2_impl; [exact Hall|]. intros kw i. unfold tableIndex. simpl.
    destruct (HashSequential_Hash (hasher_after r) kw) as [h|]; [|done].
    simpl. intros [= <-]. by exists h.
  - exists n. split; [lia|]. split; [done|]. exact Hfail.
Qed.

(** C6.  When [tableSizeBits] is not in (0,32] or [inputs] is empty,
    [Search] returns at once, whatever the hasher and whatever fuel the
    loop is given: the attempt count is 0, the error is the one of the
    precondition that failed (two different errors, and neither is
    ErrNoCoefficientsFound), and the scratch table and the hasher are
    the ones that were passed. *)
Theorem Search_precondition_failure {H : Type} `{Hash H} (hasher : H)
    (fuel : nat) (phf : HashFinder) (bits : Z) (inputs : list string) :
  (bits ≤ 0 ∨ 32 < bits) ∨ inputs = [] →
  HashFinder_Search fuel phf hasher bits inputs
  = Returns (mkSR 0 (Some (if (bits <=? 0) || (32 <? bits)
                           then ErrTableSizeBits else ErrZeroInputs))
                  hasher phf)
  ∧ ErrTableSizeBits ≠ ErrZeroInputs
  ∧ ErrTableSizeBits ≠ ErrNoCoefficientsFound
  ∧ ErrZeroInputs ≠ ErrNoCoefficientsFound.
Proof.
  intros Hpre. split; [|done]. unfold HashFinder_Search.
  destruct ((bits <=? 0) || (32 <? bits)) eqn:Ebits; [done|].
  apply orb_false_iff in Ebits as [E1 E2].
  apply Z.leb_gt in E1. apply Z.ltb_ge in E2.
  destruct Hpre as [Hbits| ->]; [lia|done].
Qed.

(** C7.  For [tableSizeBits] b in (0,32] and a string the family
    hashes to h, the index [Search] uses is [h & (2^b - 1)]; it lies in
    [0, 2^b), the table [Search] sets up has [2^b] slots, and the
    index is inside every table of that length, so that an attempt
    over inputs the family can hash never faults on a table access. *)
Theorem table_index_in_bounds (hs : HashSequential) (s : string) (b h : Z)
    (phf : HashFinder) :
  0 < b ≤ 32 → HashSequential_Hash hs s = Some h →
  tableIndex hs (tableMask b) s = Some (Z.land h (2 ^ b - 1))
  ∧ 0 ≤ Z.land h (2 ^ b - 1) < 2 ^ b
  ∧ Z.of_nat (length (growTable (hashmap phf) (tableSize b))) = 2 ^ b
  ∧ (∀ t : list Z,
       length t = length (growTable (hashmap phf) (tableSize b)) →
       is_Some (t !! Z.to_nat (Z.land h (2 ^ b - 1))))
  ∧ (∀ (inputs : list string) (t : list Z),
       Forall (λ kw, is_Some (HashSequential_Hash hs kw)) inputs →
       length t = length (growTable (hashmap phf) (tableSize b)) →
       is_Some (placeInputs hs (tableMask b) t inputs)).
Proof.
  intros Hb Hh. pose proof (land_mask_range h b ltac:(lia)) as Hrange.
  rewrite growTable_length, (tableSize_valid b Hb), (tableMask_valid b Hb).
  assert (0 < 2 ^ b) by (apply Z.pow_pos_nonneg; lia).
  split; [unfold tableIndex; simpl; by rewrite Hh|]. split; [done|].
  split; [lia|]. split.
  - intros t Hlen. apply lookup_lt_is_Some_2. lia.
  - intros inputs t Hall Hlen.
    change (Forall (λ kw, is_Some (Hash_Hash hs kw)) inputs) in Hall.
    destruct (placeInputs_total hs b ltac:(lia) inputs t Hall Hlen) as (ok & t' & ->).
    by eexists.
Qed.

(** More fuel does not change what [Search] returns. *)
Lemma Search_more_fuel {H : Type} `{Hash H} (hasher : H) (fuel fuel' : nat)
    (phf : HashFinder) (bits : Z) (inputs : list string) (r : SearchResult H) :
  HashFinder_Search fuel phf hasher bits inputs = Returns r → (fuel ≤ fuel')%nat →
  HashFinder_Search fuel' phf hasher bits inputs = Returns r.
Proof.
  unfold HashFinder_Search. intros Hr Hle.
  destruct ((bits <=? 0) || (32 <? bits)) eqn:Ebits; [done|].
  destruct (length inputs =? 0)%nat; [done|].
  apply orb_false_iff in Ebits as [E1 E2].
  apply Z.leb_gt in E1. apply Z.ltb_ge in E2.
  rewrite (tableMask_valid bits) in Hr |- * by lia.
  replace fuel' with (fuel + (fuel' - fuel))%nat by lia.
  by apply searchLoop_more_fuel.
Qed.

Lemma Forall2_index_NoDup {A B : Type} (f : A → option B) (l : list A) (idxs : list B) :
  Forall2 (λ x i, f x = Some i) l idxs → NoDup idxs → NoDup l.
Proof.
  induction 1 as [|x i l idxs Hx Hall IH]; intros Hnd; [constructor|].
  inversion Hnd as [|? ? Hnotin Hnd']; subst. constructor; [|by apply IH].
  intros Hin. apply Hnotin. apply list_elem_of_lookup in Hin as [k Hk].
  destruct (Forall2_lookup_l _ _ _ k x Hall Hk) as (j & Hj & Hfj).
  rewrite Hx in Hfj. injection Hfj as <-. by eapply list_elem_of_lookup_2.
Qed.

(** With a repeated input [Search] never returns success, whatever
    the hasher. *)
Lemma Search_duplicate_never_succeeds {H : Type} `{Hash H} (hasher : H)
    (fuel : nat) (phf : HashFinder) (bits : Z) (inputs : list string)
    (r : SearchResult H) :
  ¬ NoDup inputs →
  HashFinder_Search fuel phf hasher bits inputs = Returns r → err r ≠ None.
Proof.
  intros Hdup. unfold HashFinder_Search.
  destruct ((bits <=? 0) || (32 <? bits)) eqn:Ebits; [by intros [= <-]|].
  destruct (length inputs =? 0)%nat; [by intros [= <-]|].
  apply orb_false_iff in Ebits as [E1 E2].
  apply Z.leb_gt in E1. apply Z.ltb_ge in E2.
  rewrite (tableMask_valid bits) by lia. intros Hloop Herr.
  destruct (searchLoop_success bits inputs fuel _ _ _ _ Hloop Herr)
    as (n & _ & _ & Hok & _).
  destruct (placeInputs_success (hasher_after r) bits ltac:(lia) inputs _ _ Hok)
    as (idxs & Hall & Hnd & _).
  apply Hdup. by eapply Forall2_index_NoDup.
Qed.

(** C2, as the code has it.  For a family that [ConfigCoefs] accepted,
    with at least one byte coefficient, in which no increment wraps
    around (every StartValue and MaxValue is below 2^63), which can be
    evaluated (supported operations, indexes above the least [int]),
    whose byte coefficients start below their MaxValue and whose length
    coefficient starts at or below its own: over inputs with a repeated
    string and [tableSizeBits] in (0,32], [Search] never returns
    success; every attempt along the way fails; and it does return:
    the error is ErrNoCoefficientsFound and the attempt count is the
    search-space size [lengthRange * coef1Range * coef2Range * ...]. *)
Theorem Search_duplicate_exhausts_space (hs0 hs : HashSequential) (defaultMax : Z)
    (phf : HashFinder) (bits : Z) (inputs : list string) :
  HashSequential_ConfigCoefs hs0 defaultMax = (hs, None) →
  Coefs hs ≠ [] → noWrap hs → evaluable hs → startsInRange hs →
  0 < bits ≤ 32 → ¬ NoDup inputs →
  (∀ fuel r, HashFinder_Search fuel phf hs bits inputs = Returns r → err r ≠ None)
  ∧ (∀ (k : nat) hk, advance k hs = Some hk → attemptFails hk bits inputs)
  ∧ ∃ fuel r,
      (∀ fuel', (fuel ≤ fuel')%nat →
         HashFinder_Search fuel' phf hs bits inputs = Returns r)
      ∧ err r = Some ErrNoCoefficientsFound
      ∧ attempts r = searchSpace hs.
Proof.
  intros Hcfg Hne Hwrap Heval Hstart Hbits Hdup.
  apply ConfigCoefs_configured in Hcfg.
  destruct (configured_familyOk hs Hcfg Hwrap Hne) as [Hok Hspace].
  pose proof (configured_regular hs Hcfg Hstart) as Hreg.
  pose proof (familyLeft_nonneg hs Hok) as Hnn.
  split; [intros fuel r; by apply Search_duplicate_never_succeeds|]. split.
  - intros k. clear - Heval Hbits Hdup. revert hs Heval.
    induction k as [|k IH]; intros hs Heval hk; simpl.
    + intros [= <-].
      destruct (placeInputs_duplicate hs bits ltac:(lia) inputs
                  (replicate (Z.to_nat (2 ^ bits)) 0)) as [t' Ht'];
        [by apply hashable_inputs|by rewrite length_replicate|done|].
      by exists t'.
    + destruct (HashSequential_Increment hs) as [[hs' fin]|] eqn:Hinc; [|done].
      destruct fin; [done|]. apply IH.
      eapply Increment_Forall; eauto using applyOk_init, applyOk_Increment.
  - destruct (searchLoop_exhausts bits ltac:(lia) inputs
                (Z.to_nat (familyLeft hs)) hs
                (growTable (hashmap phf) (tableSize bits)) 0)
      as (r & Hr & Hatt & Herr);
      [done|done|done|by rewrite growTable_length, tableSize_valid|done|lia|].
    exists (S (Z.to_nat (familyLeft hs))), r.
    split; [|split; [done|lia]].
    intros fuel' Hle. eapply Search_more_fuel; [|exact Hle].
    unfold HashFinder_Search.
    destruct (bits <=? 0) eqn:E1; [apply Z.leb_le in E1; lia|].
    destruct (32 <? bits) eqn:E2; [apply Z.ltb_lt in E2; lia|]. simpl orb. cbv iota.
    destruct inputs as [|kw rest]; [destruct Hdup; constructor|].
    simpl Nat.eqb. cbv iota. by rewrite tableMask_valid.
Qed.

(** C3, as the code has it.  For a family that [ConfigCoefs] accepted,
    with at least one byte coefficient, in which no increment wraps
    around (every StartValue and MaxValue is below 2^63) and which can
    be evaluated (supported operations, indexes above the least
    [int]), and for [tableSizeBits] in (0,32] and non-empty inputs:
    [Search] terminates, with success or with ErrNoCoefficientsFound,
    and the attempt count it returns is at most the search-space size
    [lengthRange * coef1Range * coef2Range * ...]. *)
Theorem Search_terminates_within_space (hs0 hs : HashSequential) (defaultMax : Z)
    (phf : HashFinder) (bits : Z) (inputs : list string) :
  HashSequential_ConfigCoefs hs0 defaultMax = (hs, None) →
  Coefs hs ≠ [] → noWrap hs → evaluable hs →
  0 < bits ≤ 32 → inputs ≠ [] →
  ∃ fuel r,
    (∀ fuel', (fuel ≤ fuel')%nat →
       HashFinder_Search fuel' phf hs bits inputs = Returns r)
    ∧ (err r = None ∨ err r = Some ErrNoCoefficientsFound)
    ∧ 1 ≤ attempts r ≤ searchSpace hs.
Proof.
  intros Hcfg Hne Hwrap Heval Hbits Hinputs.
  apply ConfigCoefs_configured in Hcfg.
  destruct (configured_familyOk hs Hcfg Hwrap Hne) as [Hok Hspace].
  pose proof (familyLeft_nonneg hs Hok) as Hnn.
  destruct (searchLoop_terminates bits ltac:(lia) inputs
              (Z.to_nat (familyLeft hs)) hs
              (growTable (hashmap phf) (tableSize bits)) 0)
    as (r & Hr & Hatt & Herr);
    [done|done|by rewrite growTable_length, tableSize_valid|lia|].
  exists (S (Z.to_nat (familyLeft hs))), r.
  split; [|split; [done|lia]].
  intros fuel' Hle. eapply Search_more_fuel; [|exact Hle].
  unfold HashFinder_Search.
  destruct (bits <=? 0) eqn:E1; [apply Z.leb_le in E1; lia|].
  destruct (32 <? bits) eqn:E2; [apply Z.ltb_lt in E2; lia|]. simpl orb. cbv iota.
  destruct inputs as [|kw rest]; [done|].
  simpl Nat.eqb. cbv iota. by rewrite tableMask_valid.
Qed.

(** ** The tuples of coefficient values an advancing family visits *)

Lemma cfgOf_init c : cfgOf (Coef_init c) = cfgOf c.
Proof. unfold cfgOf. by destruct (Coef_init_fields c) as (-> & -> & -> & _). Qed.

Lemma cfgOf_Increment c : cfgOf (Coef_Increment c) = cfgOf c.
Proof. unfold cfgOf. by destruct (Coef_Increment_fields c) as (-> & -> & -> & _). Qed.

Lemma carry_cfg rest : ∀ c, cfgOf <$> carry c rest = cfgOf <$> (c :: rest).
Proof.
  induction rest as [|d ds IH]; intros c; simpl; [done|].
  destruct (Coef_Saturated c); [|done]. simpl.
  by rewrite IH, cfgOf_init; simpl; rewrite cfgOf_Increment.
Qed.

Lemma Increment_cfg hs hs' fin :
  HashSequential_Increment hs = Some (hs', fin) →
  cfgOf <$> Coefs hs' = cfgOf <$> Coefs hs ∧ cfgOf (LenCoef hs') = cfgOf (LenCoef hs).
Proof.
  unfold HashSequential_Increment. destruct (Coefs hs) as [|c rest]; [done|].
  destruct (carry (Coef_Increment c) rest !! _) as [lst|] eqn:Hlst; [|done].
  pose proof (carry_cfg rest (Coef_Increment c)) as Hcfg.
  simpl in Hcfg. rewrite cfgOf_Increment in Hcfg. simpl.
  destruct (Coef_Saturated lst); intros [= <- _]; simpl; [|done].
  split; [|apply cfgOf_Increment].
  rewrite list_fmap_insert, cfgOf_init, list_insert_id; [done|].
  by rewrite list_lookup_fmap, Hlst.
Qed.

Lemma startOf_cfg c c' : cfgOf c = cfgOf c' → startOf c = startOf c'.
Proof.
  unfold cfgOf, startOf. intros [= Hs Hm Hp].
  destruct (Coef_init_fields c) as (_ & _ & _ & _ & ->).
  destruct (Coef_init_fields c') as (_ & _ & _ & _ & ->). by rewrite Hs.
Qed.

Lemma coefs_ext coefs : ∀ coefs',
  cfgOf <$> coefs = cfgOf <$> coefs' → Value <$> coefs = Value <$> coefs' →
  coefsSpace coefs = coefsSpace coefs' ∧ coefsLeft coefs = coefsLeft coefs'.
Proof.
  induction coefs as [|c rest IH]; intros [|c' rest']; simpl; try done.
  intros Hcfg [= Hv Hvrest]. apply (inj2 cons) in Hcfg as [Hc Hrest].
  destruct (IH _ Hrest Hvrest) as [-> ->].
  assert (coefRange c = coefRange c') as ->.
  { unfold coefRange. rewrite (startOf_cfg _ _ Hc).
    unfold cfgOf in Hc. injection Hc as _ -> ->. done. }
  assert (stepsLeft c = stepsLeft c') as ->; [|done].
  unfold stepsLeft. rewrite Hv. unfold cfgOf in Hc. injection Hc as _ -> ->. done.
Qed.

(** The count of increments left is a function of the value tuple,
    for a fixed configuration. *)
Lemma familyLeft_ext hs hs' :
  cfgOf <$> Coefs hs = cfgOf <$> Coefs hs' → cfgOf (LenCoef hs) = cfgOf (LenCoef hs') →
  coefValues hs = coefValues hs' → familyLeft hs = familyLeft hs'.
Proof.
  intros Hc Hl [= Hvl Hv]. unfold familyLeft.
  destruct (coefs_ext _ _ Hc Hv) as [-> ->].
  unfold lenStepsLeft. rewrite Hvl. unfold cfgOf in Hl. injection Hl as _ -> ->. done.
Qed.

(** Each advancement that does not report done uses up at least one
    of the increments left. *)
Lemma advance_familyLeft (k : nat) : ∀ hs hk,
  familyOk hs → advance k hs = Some hk →
  familyOk hk ∧ familyLeft hk + Z.of_nat k ≤ familyLeft hs
  ∧ cfgOf <$> Coefs hk = cfgOf <$> Coefs hs ∧ cfgOf (LenCoef hk) = cfgOf (LenCoef hs).
Proof.
  induction k as [|k IH]; intros hs hk Hok; simpl.
  - intros [= <-]. split; [done|]. split; [lia|done].
  - destruct (Increment_spec hs Hok) as (hs' & fin & Hinc & _ & Hstep & _).
    rewrite Hinc. destruct fin; [done|]. intros Hadv.
    destruct (Hstep eq_refl) as [Hok' Hless].
    destruct (IH _ _ Hok' Hadv) as (Hokk & Hle & Hc & Hl).
    destruct (Increment_cfg _ _ _ Hinc) as [Hc' Hl'].
    split; [done|]. split; [lia|]. split; congruence.
Qed.

Lemma advance_add {H : Type} `{Hash H} (i k : nat) : ∀ hasher : H,
  advance (i + k) hasher = advance i hasher ≫= advance k.
Proof.
  induction i as [|i IH]; intros hasher; simpl; [done|].
  destruct (Hash_Increment hasher) as [[h' []]|]; simpl; auto.
Qed.

(** C5, as the code has it.  For a family that [ConfigCoefs] accepted,
    with at least one byte coefficient, in which no increment wraps
    around (every StartValue and MaxValue is below 2^63): the states
    reached by repeated [Increment] calls that have not reported done
    carry pairwise different coefficient-value tuples, the configured
    state included, and there are at most as many of them as the
    search space has elements. *)
Theorem Increment_never_revisits (hs0 hs : HashSequential) (defaultMax : Z) :
  HashSequential_ConfigCoefs hs0 defaultMax = (hs, None) →
  Coefs hs ≠ [] → noWrap hs →
  (∀ (i j : nat) si sj, (i < j)%nat →
     advance i hs = Some si → advance j hs = Some sj →
     coefValues si ≠ coefValues sj)
  ∧ (∀ (k : nat) hk, advance k hs = Some hk → Z.of_nat k < searchSpace hs).
Proof.
  intros Hcfg Hne Hwrap. apply ConfigCoefs_configured in Hcfg.
  destruct (configured_familyOk hs Hcfg Hwrap Hne) as [Hok Hspace]. split.
  - intros i j si sj Hij Hi Hj Heq.
    replace j with (i + (j - i))%nat in Hj by lia.
    rewrite advance_add, Hi in Hj. simpl in Hj.
    destruct (advance_familyLeft i hs si Hok Hi) as (Hoki & _ & _ & _).
    destruct (advance_familyLeft (j - i) si sj Hoki Hj) as (_ & Hle & Hc & Hl).
    pose proof (familyLeft_ext sj si Hc Hl (eq_sym Heq)). lia.
  - intros k hk Hk.
    destruct (advance_familyLeft k hs hk Hok Hk) as (Hokk & Hle & _).
    pose proof (familyLeft_nonneg hk Hokk). lia.
Qed.

(** ** Concrete families *)

Example exampleFamily_configured :
  HashSequential_ConfigCoefs exampleRaw 16 = (exampleFamily, None).
Proof. reflexivity. Qed.

Example exampleFamily_searchSpace : searchSpace exampleFamily = 80.
Proof. reflexivity. Qed.

Ltac concrete :=
  repeat match goal with
         | |- _ ∧ _ => split
         | |- Forall _ _ => constructor
         | |- rangeFits _ => unfold rangeFits; simpl
         | |- applyOk _ => unfold applyOk, int_min, int_max, uint_bits, OpAdd, OpXor, OpMul; simpl
         | |- startOf _ < _ => vm_compute; reflexivity
         | |- startOf _ ≤ _ => vm_compute; discriminate
         end;
  try lia.

(** Witness of C1: the example family on three keywords and a table of
    four slots succeeds at the sixth attempt. *)
Lemma Search_success_is_perfect_hash_witness :
  ∃ r, HashFinder_Search 10 (mkHF []) exampleFamily 2 ["if"; "else"; "for"]%string
       = Returns r
       ∧ err r = None
       ∧ attempts r = 6
       ∧ (∃ idxs,
            Forall2 (λ kw i, ∃ h, HashSequential_Hash (hasher_after r) kw = Some h
                                  ∧ i = Z.land h (2 ^ 2 - 1))
                    ["if"; "else"; "for"]%string idxs
            ∧ NoDup idxs).
Proof.
  eexists. split; [vm_compute; reflexivity|]. split; [reflexivity|].
  split; [reflexivity|].
  eapply (Search_success_is_perfect_hash exampleFamily 10 (mkHF []) 2);
    vm_compute; reflexivity.
Defined.

(** Witness of C6 on the example family: no bits, then no inputs. *)
Lemma Search_precondition_failure_witness :
  HashFinder_Search 10 (mkHF [7]) exampleFamily 0 ["if"]%string
  = Returns (mkSR 0 (Some ErrTableSizeBits) exampleFamily (mkHF [7]))
  ∧ HashFinder_Search 10 (mkHF [7]) exampleFamily 6 []
    = Returns (mkSR 0 (Some ErrZeroInputs) exampleFamily (mkHF [7])).
Proof.
  split.
  - apply (Search_precondition_failure exampleFamily 10 (mkHF [7]) 0 ["if"]%string).
    left. left. lia.
  - apply (Search_precondition_failure exampleFamily 10 (mkHF [7]) 6 []).
    right. reflexivity.
Defined.

(** Witness of C7: the keyword "if" under the example family and a
    table of 64 slots. *)
Lemma table_index_in_bounds_witness :
  HashSequential_Hash exampleFamily "if" = Some 13
  ∧ tableIndex exampleFamily (tableMask 6) "if" = Some (Z.land 13 (2 ^ 6 - 1))
  ∧ 0 ≤ Z.land 13 (2 ^ 6 - 1) < 2 ^ 6.
Proof.
  split; [reflexivity|].
  destruct (table_index_in_bounds exampleFamily "if" 6 13 (mkHF []))
    as (Hidx & Hrange & _); [lia|reflexivity|].
  split; [exact Hidx|exact Hrange].
Defined.

(** Witness of C2: the example family on a repeated keyword makes 80
    attempts, the size of its search space, and fails. *)
Lemma Search_duplicate_exhausts_space_witness :
  ∃ fuel r,
    (∀ fuel', (fuel ≤ fuel')%nat →
       HashFinder_Search fuel' (mkHF []) exampleFamily 6 ["if"; "for"; "if"]%string
       = Returns r)
    ∧ err r = Some ErrNoCoefficientsFound
    ∧ attempts r = searchSpace exampleFamily.
Proof.
  apply (Search_duplicate_exhausts_space exampleRaw exampleFamily 16 (mkHF []) 6
           ["if"; "for"; "if"]%string); unfold noWrap, evaluable, startsInRange;
    simpl; concrete; try done.
  intros Hnd. apply NoDup_cons in Hnd as [Hnotin _]. apply Hnotin.
  apply elem_of_cons. right. apply elem_of_cons. by left.
Defined.

(** Witness of C3: the example family on three keywords and a table of
    four slots. *)
Lemma Search_terminates_within_space_witness :
  ∃ fuel r,
    (∀ fuel', (fuel ≤ fuel')%nat →
       HashFinder_Search fuel' (mkHF []) exampleFamily 2 ["if"; "else"; "for"]%string
       = Returns r)
    ∧ (err r = None ∨ err r = Some ErrNoCoefficientsFound)
    ∧ 1 ≤ attempts r ≤ searchSpace exampleFamily.
Proof.
  apply (Search_terminates_within_space exampleRaw exampleFamily 16 (mkHF []) 2
           ["if"; "else"; "for"]%string); unfold noWrap, evaluable;
    simpl; concrete; done.
Defined.

(** Witness of C5: the example family. *)
Lemma Increment_never_revisits_witness :
  (∀ (i j : nat) si sj, (i < j)%nat →
     advance i exampleFamily = Some si → advance j exampleFamily = Some sj →
     coefValues si ≠ coefValues sj)
  ∧ (∀ (k : nat) hk, advance k exampleFamily = Some hk →
       Z.of_nat k < searchSpace exampleFamily).
Proof.
  apply (Increment_never_revisits exampleRaw exampleFamily 16);
    unfold noWrap; simpl; concrete; done.
Defined.

(** ** Where the claims fail *)

Lemma searchLoop_step_fail {H : Type} `{Hash H} (fuel : nat) (hasher hasher' : H)
    (mask : Z) (t t1 : list Z) (inputs : list string) (a : Z) :
  placeInputs hasher mask (clearTable t) inputs = Some (false, t1) →
  Hash_Increment hasher = Some (hasher', false) →
  searchLoop (S fuel) hasher mask t inputs a
  = searchLoop fuel hasher' mask t1 inputs (a + 1).
Proof. intros Hplace Hinc. simpl. by rewrite Hplace, Hinc. Qed.

(** Counterexample to C2.  [byteWrapFamily] is a configured family
    with one byte coefficient, which doubles from 2^63 to 0 and then
    stays at 0 below its MaxValue: on the repeated input "a", "a" the
    loop of [Search] never ends, so no failure is ever returned. *)
Lemma Search_duplicate_byte_wrap_never_returns :
  HashSequential_ConfigCoefs byteWrapRaw 2 = (byteWrapFamily, None)
  ∧ Coefs byteWrapFamily ≠ []
  ∧ ¬ NoDup ["a"; "a"]%string
  ∧ ∀ fuel, HashFinder_Search fuel (mkHF []) byteWrapFamily 1 ["a"; "a"]%string
            = OutOfFuel.
Proof.
  split; [reflexivity|]. split; [done|]. split.
  { intros Hnd. apply NoDup_cons in Hnd as [Hnotin _]. apply Hnotin.
    apply elem_of_cons. by left. }
  intros [|fuel]; [reflexivity|].
  change (searchLoop (S fuel) byteWrapFamily (tableMask 1)
            (growTable [] (tableSize 1)) ["a"; "a"]%string 0 = OutOfFuel).
  erewrite searchLoop_step_fail;
    [|vm_compute; reflexivity|vm_compute; reflexivity].
  apply (searchLoop_stuck 1 ["a"; "a"]%string _ 2%nat);
    [vm_compute; reflexivity|eexists; vm_compute; reflexivity|reflexivity].
Qed.

(** Counterexample to C3.  [lenWrapFamily] is a configured family with
    one byte coefficient whose length coefficient doubles from 2^63 to
    0 and then stays at 0, never above its MaxValue: [Increment] never
    reports done, and [Search] over inputs that collide on every
    attempt does not terminate. *)
Lemma Search_len_wrap_never_returns :
  HashSequential_ConfigCoefs lenWrapRaw 2 = (lenWrapFamily, None)
  ∧ Coefs lenWrapFamily ≠ []
  ∧ ∀ fuel, HashFinder_Search fuel (mkHF []) lenWrapFamily 1 ["a"; "a"]%string
            = OutOfFuel.
Proof.
  split; [reflexivity|]. split; [done|].
  intros [|fuel]; [reflexivity|].
  change (searchLoop (S fuel) lenWrapFamily (tableMask 1)
            (growTable [] (tableSize 1)) ["a"; "a"]%string 0 = OutOfFuel).
  erewrite searchLoop_step_fail;
    [|vm_compute; reflexivity|vm_compute; reflexivity].
  apply (searchLoop_stuck 1 ["a"; "a"]%string _ 2%nat);
    [vm_compute; reflexivity|eexists; vm_compute; reflexivity|reflexivity].
Qed.

(** Counterexample to C5.  [maxUintFamily] is a configured family
    whose byte coefficient doubles from 1 with the largest [uint] as
    MaxValue: the 64th [Increment] wraps its value to 0, the 65th
    leaves it at 0, neither reports done, and the two states carry the
    same coefficient-value tuple. *)
Lemma Increment_revisits_after_wrap :
  HashSequential_ConfigCoefs maxUintRaw 2 = (maxUintFamily, None)
  ∧ ∃ s s', advance 64 maxUintFamily = Some s
            ∧ advance 65 maxUintFamily = Some s'
            ∧ coefValues s = coefValues s'.
Proof.
  split; [reflexivity|]. eexists _, _.
  split; [vm_compute; reflexivity|]. split; [vm_compute; reflexivity|].
  reflexivity.
Qed.

(** C4, where the code departs from it.  [Increment] reads [coefs[0]]
    before anything else, so on a family without byte coefficients it
    panics, whatever the length coefficient; and [Search] over the
    configured length-only family panics as soon as an attempt fails. *)
Theorem Increment_without_byte_coefficients_panics :
  (∀ l, HashSequential_Increment (mkHS l []) = None)
  ∧ HashSequential_ConfigCoefs lenOnlyRaw 2 = (lenOnlyFamily, None)
  ∧ ∀ fuel, HashFinder_Search (S fuel) (mkHF []) lenOnlyFamily 1 ["a"; "a"]%string
            = Panics.
Proof.
  split; [done|]. split; [reflexivity|]. intros fuel. reflexivity.
Qed.

(** What [Apply] does for every index but the least [int]: the byte
    the index designates, times the value, or zero when the index is
    out of range, combined into the running hash. *)
Lemma Coef_Apply_spec c h kw :
  int_min < IndexApplied c ≤ int_max →
  Coef_Apply c h kw
  = combine (CoefOp c) h
      (match byteRead (IndexApplied c) kw with
       | Some x => wrap (x * Value c)
       | None => 0
       end).
Proof.
  intros Hidx. unfold Coef_Apply, byteRead, combine.
  rewrite (int_neg_small _ Hidx). pose proof (len_nonneg kw) as Hlen.
  destruct (IndexApplied c <? 0) eqn:E1; simpl.
  - apply Z.ltb_lt in E1.
    destruct (0 <=? IndexApplied c) eqn:E3; [apply Z.leb_le in E3; lia|]. simpl.
    destruct (- IndexApplied c <=? len kw) eqn:E2; simpl; [|done].
    apply Z.leb_le in E2.
    destruct (byteAt_is_Some kw (len kw + IndexApplied c)) as [x ->]; [lia|done].
  - apply Z.ltb_ge in E1.
    destruct (0 <=? IndexApplied c) eqn:E3; [|apply Z.leb_gt in E3; lia]. simpl.
    destruct (IndexApplied c <? len kw) eqn:E4; simpl; [|done].
    apply Z.ltb_lt in E4.
    destruct (byteAt_is_Some kw (IndexApplied c)) as [x ->]; [lia|done].
Qed.

(** C8, where the code departs from it.  The index -2^63 is out of
    range for the two-byte string "if" (its negation 2^63 exceeds the
    length), yet [Apply] does not contribute zero: [-idx] wraps back to
    -2^63, the guard [-idx <= len(kw)] passes, and the read of
    [kw[len(kw)+idx]] panics, whatever the running hash, the value and
    the operation. *)
Theorem Apply_least_index_panics :
  byteRead int_min "if" = None
  ∧ - int_min > len "if"
  ∧ ∀ h v m s p op, Coef_Apply (mkCoef int_min v m s p op) h "if" = None.
Proof. split; [reflexivity|]. split; [reflexivity|]. intros h v m s p op. reflexivity. Qed.

(** C10, where the code departs from it.  [leastIndexFamily] is a
    configured family whose one byte coefficient has operation OpAdd
    and index -2^63: [Hash] panics on "if" and on the empty string,
    the guard of [Apply] letting the read of [kw[len(kw)+idx]] through
    at a negative position. *)
Theorem Hash_least_index_panics :
  HashSequential_ConfigCoefs leastIndexRaw 16 = (leastIndexFamily, None)
  ∧ Forall (λ c, CoefOp c = OpAdd ∨ CoefOp c = OpXor ∨ CoefOp c = OpMul)
           (Coefs leastIndexFamily)
  ∧ HashSequential_Hash leastIndexFamily "if" = None
  ∧ HashSequential_Hash leastIndexFamily EmptyString = None.
Proof.
  split; [reflexivity|]. split; [repeat constructor|]. split; reflexivity.
Qed.

(** ** The single-trial probability of the estimator

    [SearchSuccessProbability] and [SearchSpace] are called by the
    package's example but are not part of perfect.go. *)

(** For the 25 keywords and the 64 slots of the example the product is
    below one percent, where the example prints 98.86%. *)
Example singleTrialProbability_goKeywords :
  (100 * singleTrialProbability 25 64 < 1)%Q.
Proof. vm_compute. reflexivity. Qed.

(** * Further properties of the code *)

(** ** ConfigCoefs *)

Lemma Coef_config_error c defaultMax :
  snd (Coef_config c defaultMax)
  = if (MaxValue c =? 0) && (defaultMax <=? 0) then Some ErrDefaultMax else None.
Proof.
  unfold Coef_config. destruct (Coef_init_fields c) as (-> & _).
  destruct (MaxValue c =? 0); [|done]. by destruct (defaultMax <=? 0).
Qed.

Lemma config_all_error coefs defaultMax :
  snd (config_all coefs defaultMax)
  = if existsb (λ c, MaxValue c =? 0) coefs && (defaultMax <=? 0)
    then Some ErrDefaultMax else None.
Proof.
  induction coefs as [|c rest IH]; simpl; [done|].
  pose proof (Coef_config_error c defaultMax) as Hc.
  destruct (Coef_config c defaultMax) as [c' [e|]]; simpl in Hc.
  - destruct (MaxValue c =? 0); [|done]. by destruct (defaultMax <=? 0).
  - destruct (config_all rest defaultMax) as [rest' e'] eqn:Hrest. simpl in *.
    rewrite IH. destruct (MaxValue c =? 0); simpl; [|done].
    by destruct (defaultMax <=? 0); [|rewrite andb_false_r].
Qed.

(** [ConfigCoefs] fails exactly when the default is not positive and
    some coefficient, the length coefficient included, has no MaxValue
    of its own; the error is then the one about the default. *)
Theorem ConfigCoefs_error (hs : HashSequential) (defaultMax : Z) :
  snd (HashSequential_ConfigCoefs hs defaultMax)
  = if (existsb (λ c, MaxValue c =? 0) (Coefs hs) || (MaxValue (LenCoef hs) =? 0))
       && (defaultMax <=? 0)
    then Some ErrDefaultMax else None.
Proof.
  unfold HashSequential_ConfigCoefs.
  pose proof (config_all_error (Coefs hs) defaultMax) as Hall.
  destruct (config_all (Coefs hs) defaultMax) as [coefs [e|]]; simpl in Hall.
  - destruct (existsb _ (Coefs hs)); [|done]. simpl.
    by destruct (defaultMax <=? 0).
  - pose proof (Coef_config_error (LenCoef hs) defaultMax) as Hl.
    destruct (Coef_config (LenCoef hs) defaultMax) as [l e]. simpl in *.
    rewrite Hl. destruct (existsb _ (Coefs hs)); simpl; [|done].
    destruct (defaultMax <=? 0); [done|]. by rewrite !andb_false_r.
Qed.

Lemma Coef_init_op c :
  CoefOp (Coef_init c) = if CoefOp c =? opUndefined then OpAdd else CoefOp c.
Proof.
  unfold Coef_init, set_Value, set_Op.
  destruct (StartValue c =? 0); simpl; by destruct (CoefOp c =? opUndefined).
Qed.

Lemma Coef_config_configOf c defaultMax c' :
  Coef_config c defaultMax = (c', None) → configOf defaultMax c c'.
Proof.
  unfold Coef_config, configOf.
  destruct (Coef_init_fields c) as (Hm & Hs & Hp & Hi & Hv).
  pose proof (Coef_init_op c) as Ho. rewrite Hm.
  destruct (MaxValue c =? 0) eqn:Hmax.
  - destruct (defaultMax <=? 0); [done|]. intros [= <-]. simpl. by rewrite Hs, Hp, Hi, Ho, Hv.
  - intros [= <-]. by rewrite Hs, Hp, Hi, Ho, Hv, Hm.
Qed.

Lemma config_all_configOf coefs defaultMax : ∀ coefs',
  config_all coefs defaultMax = (coefs', None) →
  Forall2 (configOf defaultMax) coefs coefs'.
Proof.
  induction coefs as [|c rest IH]; intros coefs'; simpl.
  - intros [= <-]. constructor.
  - destruct (Coef_config c defaultMax) as [c' [e|]] eqn:Hc; [done|].
    destruct (config_all rest defaultMax) as [rest' e'] eqn:Hrest.
    intros [= <- ->]. constructor; [by eapply Coef_config_configOf|by apply IH].
Qed.

(** When [ConfigCoefs] returns nil, every coefficient, the length
    coefficient included, keeps the index, start value, stepping, and
    any MaxValue and operation the caller had set; an unset MaxValue is
    the default, an unset operation is OpAdd, and the value is the
    start value (1 when the start value is 0).  No coefficient is
    added or dropped. *)
Theorem ConfigCoefs_success (hs hs' : HashSequential) (defaultMax : Z) :
  HashSequential_ConfigCoefs hs defaultMax = (hs', None) →
  configOf defaultMax (LenCoef hs) (LenCoef hs')
  ∧ Forall2 (configOf defaultMax) (Coefs hs) (Coefs hs').
Proof.
  unfold HashSequential_ConfigCoefs.
  destruct (config_all (Coefs hs) defaultMax) as [coefs [e|]] eqn:Hcoefs; [done|].
  destruct (Coef_config (LenCoef hs) defaultMax) as [l e] eqn:Hl.
  intros [= <- ->]. simpl.
  split; [by eapply Coef_config_configOf|by apply config_all_configOf].
Qed.

Lemma ConfigCoefs_success_witness :
  configOf 16 (LenCoef exampleRaw) (LenCoef exampleFamily)
  ∧ Forall2 (configOf 16) (Coefs exampleRaw) (Coefs exampleFamily).
Proof. apply (ConfigCoefs_success exampleRaw exampleFamily 16). reflexivity. Defined.




(** ** Increment, coefficient by coefficient *)

Lemma touched_refl front : Forall2 touched front front.
Proof. induction front; constructor; [by left|done]. Qed.

Lemma carry_touched rest : ∀ c0,
  ∃ front0 l0 front l,
    c0 :: rest = front0 ++ [l0]
    ∧ carry (Coef_Increment c0) rest = front ++ [l]
    ∧ Forall2 touched front0 front
    ∧ (l = l0 ∨ l = Coef_Increment l0).
Proof.
  induction rest as [|d ds IH]; intros c0.
  - exists [], c0, [], (Coef_Increment c0). simpl. repeat split; [constructor|by right].
  - simpl carry. destruct (Coef_Saturated (Coef_Increment c0)) eqn:Hsat.
    + destruct (IH d) as (front0 & l0 & front & l & Heq0 & Heq & Hall & Hl).
      exists (c0 :: front0), l0, (Coef_init (Coef_Increment c0) :: front), l.
      rewrite Heq0, Heq. repeat split; [|done].
      constructor; [right; right; by left|done].
    + destruct (nonempty_snoc d ds) as (front0 & l0 & Heq0).
      exists (c0 :: front0), l0, (Coef_Increment c0 :: front0), l0.
      rewrite Heq0. repeat split; [|by left].
      constructor; [right; right; by right|apply touched_refl].
Qed.

Lemma Increment_elementwise (hs : HashSequential) :
  Coefs hs ≠ [] →
  ∃ hs' fin,
    HashSequential_Increment hs = Some (hs', fin)
    ∧ Forall2 touched (Coefs hs) (Coefs hs')
    ∧ (LenCoef hs' = LenCoef hs ∨ LenCoef hs' = Coef_Increment (LenCoef hs))
    ∧ fin = (MaxValue (LenCoef hs') <? Value (LenCoef hs')).
Proof.
  intros Hne. unfold HashSequential_Increment.
  destruct (Coefs hs) as [|c0 rest]; [done|].
  destruct (carry_touched rest c0) as (front0 & l0 & front & l & -> & -> & Hall & Hl).
  rewrite lookup_last_snoc. cbn [mbind option_bind].
  destruct (Coef_Saturated l) eqn:Hsat.
  - rewrite insert_last_snoc. eexists _, _. split; [reflexivity|]. simpl.
    split; [|split; [by right|done]].
    apply Forall2_app; [done|]. constructor; [|constructor].
    destruct Hl as [->| ->]; [right; by left|right; right; by left].
  - eexists _, _. split; [reflexivity|]. simpl.
    split; [|split; [by left|done]].
    apply Forall2_app; [done|]. constructor; [|constructor].
    destruct Hl as [->| ->]; [by left|right; right; by right].
Qed.

(** On a family with at least one byte coefficient [Increment] does
    not panic.  It changes each byte coefficient in one of four ways
    (untouched, reset, incremented and reset, or incremented short of
    saturation), and none is added or dropped; it leaves the length
    coefficient alone or increments it once; and it reports done
    exactly when the length coefficient it leaves is above its
    MaxValue. *)
Theorem Increment_touches (hs : HashSequential) :
  Coefs hs ≠ [] →
  ∃ hs' fin,
    HashSequential_Increment hs = Some (hs', fin)
    ∧ Forall2 touched (Coefs hs) (Coefs hs')
    ∧ (LenCoef hs' = LenCoef hs ∨ LenCoef hs' = Coef_Increment (LenCoef hs))
    ∧ fin = (MaxValue (LenCoef hs') <? Value (LenCoef hs')).
Proof. exact (Increment_elementwise hs). Qed.

Lemma Increment_touches_witness :
  ∃ hs' fin,
    HashSequential_Increment exampleFamily = Some (hs', fin)
    ∧ Forall2 touched (Coefs exampleFamily) (Coefs hs')
    ∧ (LenCoef hs' = LenCoef exampleFamily
       ∨ LenCoef hs' = Coef_Increment (LenCoef exampleFamily))
    ∧ fin = (MaxValue (LenCoef hs') <? Value (LenCoef hs')).
Proof. apply (Increment_touches exampleFamily). done. Defined.

(** ** What [Search] preserves *)

(** Whatever every [Increment] preserves holds of the hasher [Search]
    leaves. *)
Lemma searchLoop_invariant {H : Type} `{Hash H} (Inv : H → Prop) :
  (∀ h h' fin, Inv h → Hash_Increment h = Some (h', fin) → Inv h') →
  ∀ fuel hasher mask t inputs a r,
    Inv hasher → searchLoop fuel hasher mask t inputs a = Returns r →
    Inv (hasher_after r).
Proof.
  intros Hstep. induction fuel as [|fuel IH]; intros hasher mask t inputs a r Hinv;
    [done|].
  simpl. destruct (placeInputs hasher mask (clearTable t) inputs) as [[[] t1]|];
    [by intros [= <-]| |done].
  destruct (Hash_Increment hasher) as [[h' fin]|] eqn:Hinc; [|done].
  specialize (Hstep _ _ _ Hinv Hinc).
  destruct fin; [by intros [= <-]|]. by apply IH.
Qed.

Lemma Search_invariant {H : Type} `{Hash H} (Inv : H → Prop) :
  (∀ h h' fin, Inv h → Hash_Increment h = Some (h', fin) → Inv h') →
  ∀ fuel phf hasher bits inputs r,
    Inv hasher → HashFinder_Search fuel phf hasher bits inputs = Returns r →
    Inv (hasher_after r).
Proof.
  intros Hstep fuel phf hasher bits inputs r Hinv. unfold HashFinder_Search.
  destruct ((bits <=? 0) || (32 <? bits)); [by intros [= <-]|].
  destruct (length inputs =? 0)%nat; [by intros [= <-]|].
  by apply searchLoop_invariant.
Qed.

Lemma Coef_init_eq c :
  Coef_init c
  = mkCoef (IndexApplied c) (if StartValue c =? 0 then 1 else StartValue c)
           (MaxValue c) (StartValue c) (OnlyPow2 c)
           (if CoefOp c =? opUndefined then OpAdd else CoefOp c).
Proof.
  destruct c as [i v m s p o]. unfold Coef_init, set_Value, set_Op. simpl.
  destruct (s =? 0); simpl; by destruct (o =? opUndefined).
Qed.

Lemma Coef_init_idem c : Coef_init (Coef_init c) = Coef_init c.
Proof.
  rewrite (Coef_init_eq (Coef_init c)), (Coef_init_eq c). simpl. f_equal.
  destruct (CoefOp c =? opUndefined) eqn:Ho; [done|by rewrite Ho].
Qed.

Lemma Coef_init_Increment c : Coef_init (Coef_Increment c) = Coef_init c.
Proof.
  rewrite (Coef_init_eq (Coef_Increment c)), (Coef_init_eq c).
  by destruct (Coef_Increment_fields c) as (-> & -> & -> & -> & -> & _).
Qed.

Lemma touched_init c c' : touched c c' → Coef_init c' = Coef_init c.
Proof.
  intros [->|[->|[->|[-> _]]]];
    by rewrite ?Coef_init_idem, ?Coef_init_Increment.
Qed.

Lemma Increment_init hs hs' fin :
  HashSequential_Increment hs = Some (hs', fin) →
  Coef_init <$> Coefs hs' = Coef_init <$> Coefs hs
  ∧ Coef_init (LenCoef hs') = Coef_init (LenCoef hs).
Proof.
  intros Hinc. destruct (decide (Coefs hs = [])) as [Hnil|Hne].
  { unfold HashSequential_Increment in Hinc. by rewrite Hnil in Hinc. }
  destruct (Increment_elementwise hs Hne) as (hs1 & fin1 & Hinc1 & Hall & Hl & _).
  rewrite Hinc in Hinc1. injection Hinc1 as <- <-. split.
  - clear -Hall. induction Hall as [|c c' l l' Hc _ IH]; [done|].
    by rewrite !fmap_cons, (touched_init _ _ Hc), IH.
  - destruct Hl as [->| ->]; [done|apply Coef_init_Increment].
Qed.

Lemma coefConfigured_init c : coefConfigured c → Coef_init c = c.
Proof.
  intros (Hv & _ & Hop). rewrite Coef_init_eq. unfold startOf in Hv.
  rewrite Coef_init_eq in Hv. simpl in Hv. rewrite <- Hv.
  apply Z.eqb_neq in Hop. rewrite Hop. by destruct c.
Qed.

Lemma Coef_config_reset c c' defaultMax :
  coefConfigured c → Coef_init c' = c → Coef_config c' defaultMax = (c, None).
Proof.
  intros (_ & Hm & _) Hinit. unfold Coef_config. rewrite Hinit.
  apply Z.eqb_neq in Hm. by rewrite Hm.
Qed.

Lemma config_all_reset coefs : ∀ coefs' defaultMax,
  Forall coefConfigured coefs → Coef_init <$> coefs' = coefs →
  config_all coefs' defaultMax = (coefs, None).
Proof.
  induction coefs as [|c rest IH]; intros [|c' rest'] defaultMax Hall; simpl; try done.
  intros Heq. apply (inj2 cons) in Heq as [Hc Hrest].
  inversion Hall as [|? ? Hcc Hrc]; subst c rest.
  rewrite (Coef_config_reset _ c' defaultMax Hcc eq_refl).
  by rewrite (IH rest' defaultMax Hrc eq_refl).
Qed.

(** Running [ConfigCoefs] on the family a [Search] has left, whatever
    the outcome of the search and whatever the default, gives back the
    configured family the search started from: the search changes
    coefficient values only, and configuring resets them. *)
Theorem ConfigCoefs_after_Search (hs0 hs : HashSequential) (defaultMax defaultMax' : Z)
    (fuel : nat) (phf : HashFinder) (bits : Z) (inputs : list string)
    (r : SearchResult HashSequential) :
  HashSequential_ConfigCoefs hs0 defaultMax = (hs, None) →
  HashFinder_Search fuel phf hs bits inputs = Returns r →
  HashSequential_ConfigCoefs (hasher_after r) defaultMax' = (hs, None).
Proof.
  intros Hcfg Hsearch. apply ConfigCoefs_configured in Hcfg as [Hcoefs Hlen].
  assert (Coef_init <$> Coefs (hasher_after r) = Coef_init <$> Coefs hs
          ∧ Coef_init (LenCoef (hasher_after r)) = Coef_init (LenCoef hs))
    as [Hc Hl].
  { refine (Search_invariant
              (λ h : HashSequential, Coef_init <$> Coefs h = Coef_init <$> Coefs hs
                   ∧ Coef_init (LenCoef h) = Coef_init (LenCoef hs))
              _ fuel phf hs bits inputs r _ Hsearch); [|done].
    intros h h' fin [Hc Hl] Hinc. simpl in Hinc.
    destruct (Increment_init _ _ _ Hinc) as [Hc' Hl']. split; congruence. }
  assert (Coef_init <$> Coefs hs = Coefs hs) as Hid.
  { clear -Hcoefs. induction Hcoefs as [|c l Hc _ IH]; [done|].
    by rewrite fmap_cons, (coefConfigured_init c Hc), IH. }
  rewrite Hid in Hc. rewrite (coefConfigured_init _ Hlen) in Hl.
  unfold HashSequential_ConfigCoefs.
  rewrite (config_all_reset (Coefs hs) _ defaultMax' Hcoefs Hc).
  rewrite (Coef_config_reset _ _ defaultMax' Hlen Hl). by destruct hs.
Qed.

Lemma ConfigCoefs_after_Search_witness :
  ∃ r, HashFinder_Search 10 (mkHF []) exampleFamily 2 ["if"; "else"; "for"]%string
       = Returns r
       ∧ hasher_after r ≠ exampleFamily
       ∧ HashSequential_ConfigCoefs (hasher_after r) 0 = (exampleFamily, None).
Proof.
  eexists. split; [vm_compute; reflexivity|]. split; [done|].
  apply (ConfigCoefs_after_Search exampleRaw exampleFamily 16 0 10 (mkHF []) 2
           ["if"; "else"; "for"]%string); reflexivity.
Defined.

(** ** How far [Increment] goes *)

Lemma advance_exact (n : nat) : ∀ hs,
  familyOk hs → regular hs → familyLeft hs = Z.of_nat n →
  is_Some (advance n hs) ∧ advance (S n) hs = None.
Proof.
  induction n as [|n IH]; intros hs Hok Hreg Hleft;
    destruct (Increment_spec hs Hok) as (hs' & fin & Hinc & _ & Hstep & Hexact);
    destruct (Hexact Hreg) as [Hgo Hend]; simpl; rewrite Hinc; destruct fin.
  - split; [by eexists|done].
  - destruct (Hgo eq_refl) as [_ Hone]. destruct (Hstep eq_refl) as [Hok' _].
    pose proof (familyLeft_nonneg hs' Hok'). lia.
  - specialize (Hend eq_refl). lia.
  - destruct (Hgo eq_refl) as [Hreg' Hone]. destruct (Hstep eq_refl) as [Hok' _].
    apply (IH hs' Hok' Hreg'). lia.
Qed.

(** From the state [ConfigCoefs] leaves, in a family whose increments
    do not wrap around and whose coefficients start inside their
    ranges, [Increment] can be called without reporting done exactly
    [searchSpace - 1] times: the [k]-th state exists if and only if
    [k] is below the product of the range sizes. *)
Theorem Increment_exhausts_exactly (hs0 hs : HashSequential) (defaultMax : Z) (k : nat) :
  HashSequential_ConfigCoefs hs0 defaultMax = (hs, None) →
  Coefs hs ≠ [] → noWrap hs → startsInRange hs →
  is_Some (advance k hs) ↔ Z.of_nat k < searchSpace hs.
Proof.
  intros Hcfg Hne Hwrap Hstart. apply ConfigCoefs_configured in Hcfg.
  destruct (configured_familyOk hs Hcfg Hwrap Hne) as [Hok Hspace].
  pose proof (configured_regular hs Hcfg Hstart) as Hreg.
  pose proof (familyLeft_nonneg hs Hok) as Hnn. split.
  - intros [hk Hk]. destruct (advance_familyLeft k hs hk Hok Hk) as (Hokk & Hle & _).
    pose proof (familyLeft_nonneg hk Hokk). lia.
  - intros Hlt.
    destruct (advance_exact (Z.to_nat (familyLeft hs)) hs Hok Hreg ltac:(lia))
      as [[hn Hn] _].
    replace (Z.to_nat (familyLeft hs)) with (k + (Z.to_nat (familyLeft hs) - k))%nat
      in Hn by lia.
    rewrite advance_add in Hn. destruct (advance k hs) as [hk|]; [by eexists|done].
Qed.

Lemma Increment_exhausts_exactly_witness :
  is_Some (advance 79 exampleFamily) ↔ 79 < searchSpace exampleFamily.
Proof.
  apply (Increment_exhausts_exactly exampleRaw exampleFamily 16 79);
    unfold noWrap, startsInRange; simpl; concrete; done.
Defined.

Lemma value_after_ge p v : 1 ≤ v < 2 ^ 63 → v ≤ value_after p v.
Proof.
  intros Hv. change (2 ^ 63) with 9223372036854775808 in Hv.
  unfold value_after. destruct p; rewrite wrap_small; rewrite ?uint_mod_eq; lia.
Qed.

Lemma touched_lower_bound c c' :
  touched c c' → digitOk c → startOf c ≤ Value c → startOf c' ≤ Value c'.
Proof.
  intros [->|[->|[->|[-> _]]]] Hok Hle; [done| | |].
  - rewrite startOf_init. unfold startOf. lia.
  - rewrite startOf_init, startOf_Increment. unfold startOf.
    rewrite Coef_init_Increment. lia.
  - rewrite startOf_Increment.
    destruct (Coef_Increment_fields c) as (_ & _ & _ & _ & _ & ->).
    destruct Hok as (_ & Hv & _). pose proof (value_after_ge (OnlyPow2 c) _ Hv). lia.
Qed.

Lemma advance_lower_bound (k : nat) : ∀ hs hk,
  familyOk hs → regular hs →
  Forall (λ c, startOf c ≤ Value c) (Coefs hs) →
  startOf (LenCoef hs) ≤ Value (LenCoef hs) →
  advance k hs = Some hk →
  familyOk hk ∧ regular hk
  ∧ Forall (λ c, startOf c ≤ Value c) (Coefs hk)
  ∧ startOf (LenCoef hk) ≤ Value (LenCoef hk).
Proof.
  induction k as [|k IH]; intros hs hk Hok Hreg Hlow Hlowl; simpl.
  - by intros [= <-].
  - destruct (Increment_spec hs Hok) as (hs' & fin & Hinc & _ & Hstep & Hexact).
    rewrite Hinc. destruct fin; [done|].
    destruct (Hstep eq_refl) as [Hok' _].
    destruct (Hexact Hreg) as [Hgo _]. destruct (Hgo eq_refl) as [Hreg' _].
    destruct (Increment_elementwise hs (proj1 (proj2 Hok)))
      as (hs1 & fin1 & Hinc1 & Hall & Hl & _).
    rewrite Hinc in Hinc1. injection Hinc1 as <- <-.
    apply IH; [done|done| |].
    + destruct Hok as (Hdig & _). clear -Hall Hlow Hdig.
      induction Hall as [|c c' l l' Hc _ IHl]; [constructor|].
      inversion Hlow; inversion Hdig; subst.
      constructor; [by eapply touched_lower_bound|by apply IHl].
    + destruct Hl as [->| ->]; [done|]. rewrite startOf_Increment.
      destruct (Coef_Increment_fields (LenCoef hs)) as (_ & _ & _ & _ & _ & ->).
      destruct Hok as (_ & _ & _ & Hv).
      pose proof (value_after_ge (OnlyPow2 (LenCoef hs)) _ Hv). lia.
Qed.

(** Every state the odometer passes through, from the configured one
    to the last before done is reported, has each byte coefficient's
    value between its start value and its MaxValue, the latter
    excluded, and the length coefficient's value between its start
    value and its MaxValue, both included, for a family whose
    increments do not wrap around and whose coefficients start inside
    their ranges. *)
Theorem advance_values_in_range (hs0 hs hk : HashSequential) (defaultMax : Z) (k : nat) :
  HashSequential_ConfigCoefs hs0 defaultMax = (hs, None) →
  Coefs hs ≠ [] → noWrap hs → startsInRange hs →
  advance k hs = Some hk →
  Forall (λ c, startOf c ≤ Value c < MaxValue c) (Coefs hk)
  ∧ startOf (LenCoef hk) ≤ Value (LenCoef hk) ≤ MaxValue (LenCoef hk).
Proof.
  intros Hcfg Hne Hwrap Hstart Hk. apply ConfigCoefs_configured in Hcfg.
  destruct (configured_familyOk hs Hcfg Hwrap Hne) as [Hok _].
  pose proof (configured_regular hs Hcfg Hstart) as Hreg.
  destruct (advance_lower_bound k hs hk Hok Hreg) as (Hokk & [Hregk Hlk] & Hlow & Hlowl);
    [|destruct Hcfg as [_ (Hv & _)]; lia|done|].
  { destruct Hcfg as [Hall _]. eapply Forall_impl; [exact Hall|].
    intros c (Hv & _). simpl. lia. }
  split; [|lia]. destruct Hokk as (Hdig & _).
  clear -Hdig Hregk Hlow. induction Hdig as [|c l Hc _ IH]; [constructor|].
  inversion Hregk; inversion Hlow; subst. constructor; [|by apply IH].
  destruct Hc as (_ & _ & _ & Hv). lia.
Qed.

Lemma advance_values_in_range_witness :
  ∃ hk, advance 7 exampleFamily = Some hk
        ∧ Forall (λ c, startOf c ≤ Value c < MaxValue c) (Coefs hk)
        ∧ startOf (LenCoef hk) ≤ Value (LenCoef hk) ≤ MaxValue (LenCoef hk).
Proof.
  eexists. split; [vm_compute; reflexivity|].
  apply (advance_values_in_range exampleRaw exampleFamily _ 16 7);
    unfold noWrap, startsInRange; simpl; concrete; try done.
Defined.

(** ** More on what [Search] returns *)

Lemma searchLoop_failure {H : Type} `{Hash H} (b : Z) (inputs : list string)
    (fuel : nat) : ∀ (hasher : H) t a r,
  searchLoop fuel hasher (2 ^ b - 1) t inputs a = Returns r → err r ≠ None →
  ∃ (n : nat) hlast,
    attempts r = a + 1 + Z.of_nat n
    ∧ err r = Some ErrNoCoefficientsFound
    ∧ advance n hasher = Some hlast
    ∧ Hash_Increment hlast = Some (hasher_after r, true)
    ∧ ∀ (k : nat) hk, (k ≤ n)%nat → advance k hasher = Some hk →
        ∃ t', placeInputs hk (2 ^ b - 1) (replicate (length t) 0) inputs
              = Some (false, t').
Proof.
  induction fuel as [|fuel IH]; intros hasher t a r; [done|].
  simpl. fold (clearTable t).
  destruct (placeInputs hasher (2 ^ b - 1) (clearTable t) inputs) as [[[] t1]|]
    eqn:Hplace; [by intros [= <-] ?| |done].
  destruct (Hash_Increment hasher) as [[h' fin]|] eqn:Hinc; [|done].
  destruct fin.
  - intros [= <-] _. exists 0%nat, hasher. simpl. split; [lia|].
    split; [done|]. split; [done|]. split; [done|].
    intros k hk Hk. replace k with 0%nat by lia. intros [= <-]. by eexists.
  - intros Hloop Herr.
    destruct (IH _ _ _ _ Hloop Herr) as (n & hlast & Hn & He & Hadv & Hlast & Hfail).
    pose proof (placeInputs_length hasher b inputs _ _ _ Hplace) as Hlen.
    rewrite clearTable_length in Hlen. rewrite Hlen in Hfail.
    exists (S n), hlast. split; [lia|]. split; [done|].
    split; [by simpl; rewrite Hinc|]. split; [done|].
    intros [|k] hk Hk; simpl.
    + intros [= <-]. by eexists.
    + rewrite Hinc. apply Hfail. lia.
Qed.

(** When [Search] over a sequential family returns an error after the
    preconditions passed, the error is ErrNoCoefficientsFound; the
    returned count [n + 1] is the number of configurations tested,
    every one of which collided; the family returned is the one the
    last [Increment] left when it reported done, so its length
    coefficient is above its MaxValue. *)
Theorem Search_failure_is_exhaustion (hs : HashSequential) (fuel : nat)
    (phf : HashFinder) (bits : Z) (inputs : list string)
    (r : SearchResult HashSequential) :
  0 < bits ≤ 32 → inputs ≠ [] →
  HashFinder_Search fuel phf hs bits inputs = Returns r → err r ≠ None →
  err r = Some ErrNoCoefficientsFound
  ∧ MaxValue (LenCoef (hasher_after r)) < Value (LenCoef (hasher_after r))
  ∧ ∃ (n : nat) hlast,
      attempts r = Z.of_nat n + 1
      ∧ advance n hs = Some hlast
      ∧ HashSequential_Increment hlast = Some (hasher_after r, true)
      ∧ ∀ (k : nat) hk, (k ≤ n)%nat → advance k hs = Some hk →
          attemptFails hk bits inputs.
Proof.
  intros Hbits Hinputs. unfold HashFinder_Search.
  destruct (bits <=? 0) eqn:E1; [apply Z.leb_le in E1; lia|].
  destruct (32 <? bits) eqn:E2; [apply Z.ltb_lt in E2; lia|]. simpl orb. cbv iota.
  destruct (length inputs =? 0)%nat eqn:E3;
    [apply Nat.eqb_eq in E3; by destruct inputs|].
  rewrite (tableMask_valid bits Hbits). intros Hloop Herr.
  destruct (searchLoop_failure bits inputs fuel _ _ _ _ Hloop Herr)
    as (n & hlast & Hn & He & Hadv & Hlast & Hfail).
  rewrite growTable_length, (tableSize_valid bits Hbits) in Hfail.
  split; [done|]. split.
  - simpl in Hlast. unfold HashSequential_Increment in Hlast.
    destruct (Coefs hlast) as [|c0 rest]; [done|].
    destruct (carry (Coef_Increment c0) rest !! _) as [lst|]; [|done].
    simpl in Hlast. destruct (Coef_Saturated lst); injection Hlast as <- Hfin;
      simpl; by apply Z.ltb_lt in Hfin.
  - exists n, hlast. split; [lia|]. split; [done|]. split; [done|]. exact Hfail.
Qed.

Lemma Search_failure_is_exhaustion_witness :
  ∃ r, HashFinder_Search 100 (mkHF []) exampleFamily 6 ["if"; "for"; "if"]%string
       = Returns r
       ∧ err r = Some ErrNoCoefficientsFound
       ∧ MaxValue (LenCoef (hasher_after r)) < Value (LenCoef (hasher_after r)).
Proof.
  eexists. split; [vm_compute; reflexivity|].
  destruct (Search_failure_is_exhaustion exampleFamily 100 (mkHF []) 6
              ["if"; "for"; "if"]%string _ ltac:(lia) ltac:(done)
              ltac:(vm_compute; reflexivity) ltac:(done)) as (He & Hl & _).
  split; [exact He|exact Hl].
Defined.

(** A family whose length coefficient is already above its MaxValue,
    and stays above it if incremented once more, is tested once:
    [Search] returns after one attempt, with success if that attempt
    places every input and with ErrNoCoefficientsFound otherwise.
    This is the state a failed [Search] leaves, so a second [Search]
    on the same family tests one configuration only. *)
Theorem Search_on_exhausted_family (hs : HashSequential) (fuel : nat)
    (phf : HashFinder) (bits : Z) (inputs : list string) :
  Coefs hs ≠ [] → evaluable hs → 0 < bits ≤ 32 → inputs ≠ [] →
  MaxValue (LenCoef hs) < Value (LenCoef hs) →
  MaxValue (LenCoef hs) < value_after (OnlyPow2 (LenCoef hs)) (Value (LenCoef hs)) →
  ∃ r, HashFinder_Search (S fuel) phf hs bits inputs = Returns r
       ∧ attempts r = 1
       ∧ (err r = None ∧ hasher_after r = hs
          ∨ err r = Some ErrNoCoefficientsFound).
Proof.
  intros Hne Heval Hbits Hinputs Habove Hstay. unfold HashFinder_Search.
  destruct (bits <=? 0) eqn:E1; [apply Z.leb_le in E1; lia|].
  destruct (32 <? bits) eqn:E2; [apply Z.ltb_lt in E2; lia|]. simpl orb. cbv iota.
  destruct (length inputs =? 0)%nat eqn:E3;
    [apply Nat.eqb_eq in E3; by destruct inputs|].
  rewrite (tableMask_valid bits Hbits). cbn [searchLoop].
  destruct (placeInputs_total hs bits ltac:(lia) inputs
              (clearTable (growTable (hashmap phf) (tableSize bits))))
    as (ok & t1 & ->);
    [by apply hashable_inputs
    |by rewrite clearTable_length, growTable_length, tableSize_valid|].
  destruct ok; [eexists; split; [reflexivity|]; simpl; split; [done|by left]|].
  destruct (Increment_elementwise hs Hne) as (hs' & fin & Hinc & _ & Hl & Hfin).
  cbn [Hash_Increment HashSequential_Hash_impl]. rewrite Hinc.
  assert (fin = true) as ->.
  { rewrite Hfin. apply Z.ltb_lt. destruct Hl as [->| ->]; [done|].
    by destruct (Coef_Increment_fields (LenCoef hs)) as (-> & _ & _ & _ & _ & ->). }
  eexists. split; [reflexivity|]. simpl. split; [done|by right].
Qed.

Lemma Search_on_exhausted_family_witness :
  ∃ r, HashFinder_Search 1 (mkHF [])
         (mkHS (mkCoef 0 32 16 0 true OpAdd) (Coefs exampleFamily)) 6
         ["if"; "for"; "if"]%string = Returns r
       ∧ attempts r = 1
       ∧ (err r = None
          ∧ hasher_after r = mkHS (mkCoef 0 32 16 0 true OpAdd) (Coefs exampleFamily)
          ∨ err r = Some ErrNoCoefficientsFound).
Proof.
  apply (Search_on_exhausted_family
           (mkHS (mkCoef 0 32 16 0 true OpAdd) (Coefs exampleFamily)) 0 (mkHF []) 6
           ["if"; "for"; "if"]%string);
    unfold evaluable; simpl; concrete; try done; vm_compute; reflexivity.
Defined.

(** A single input cannot collide: when the hasher evaluates it,
    [Search] succeeds at the first attempt and leaves the hasher as it
    was, whatever its coefficient values and whatever the table held. *)
Theorem Search_single_input {H : Type} `{Hash H} (hasher : H) (fuel : nat)
    (phf : HashFinder) (bits : Z) (kw : string) (h : Z) :
  0 < bits ≤ 32 → Hash_Hash hasher kw = Some h →
  ∃ r, HashFinder_Search (S fuel) phf hasher bits [kw] = Returns r
       ∧ attempts r = 1 ∧ err r = None ∧ hasher_after r = hasher.
Proof.
  intros Hbits Hh. unfold HashFinder_Search.
  destruct (bits <=? 0) eqn:E1; [apply Z.leb_le in E1; lia|].
  destruct (32 <? bits) eqn:E2; [apply Z.ltb_lt in E2; lia|]. simpl orb.
  simpl Nat.eqb. cbv iota.
  rewrite (tableMask_valid bits Hbits). cbn [searchLoop placeInputs].
  unfold tableIndex. rewrite Hh. cbn [mbind option_bind].
  pose proof (land_mask_range h bits ltac:(lia)) as Hrange.
  rewrite clearTable_lookup
    by (rewrite growTable_length, tableSize_valid by done; lia).
  cbn [mbind option_bind]. simpl. by eexists.
Qed.

Lemma Search_single_input_witness :
  ∃ r, HashFinder_Search 1 (mkHF [3; 3]) exampleFamily 1 ["if"]%string = Returns r
       ∧ attempts r = 1 ∧ err r = None ∧ hasher_after r = exampleFamily.
Proof.
  apply (Search_single_input exampleFamily 0 (mkHF [3; 3]) 1 "if" 13);
    [lia|reflexivity].
Defined.

Lemma NoDup_bounded_length (l : list Z) (n : Z) :
  NoDup l → Forall (λ i, 0 ≤ i < n) l → Z.of_nat (length l) ≤ Z.max 0 n.
Proof.
  intros Hnd Hall.
  assert (NoDup (Z.to_nat <$> l)) as Hnd'.
  { apply NoDup_fmap_2_strong; [|done]. intros x y Hx Hy Heq.
    rewrite Forall_forall in Hall. pose proof (Hall x Hx). pose proof (Hall y Hy). lia. }
  assert (Z.to_nat <$> l ⊆+ seq 0 (Z.to_nat n)) as Hsub.
  { apply NoDup_submseteq; [done|]. intros x Hx.
    apply list_elem_of_fmap in Hx as (y & -> & Hy).
    rewrite Forall_forall in Hall. pose proof (Hall y Hy).
    apply elem_of_seq. lia. }
  apply submseteq_length in Hsub. rewrite length_fmap, length_seq in Hsub. lia.
Qed.

(** More inputs than slots cannot be placed: when the input list is
    longer than the table, [Search] never returns success, whatever
    the hasher. *)
Theorem Search_more_inputs_than_slots {H : Type} `{Hash H} (hasher : H) (fuel : nat)
    (phf : HashFinder) (bits : Z) (inputs : list string) (r : SearchResult H) :
  2 ^ bits < Z.of_nat (length inputs) →
  HashFinder_Search fuel phf hasher bits inputs = Returns r → err r ≠ None.
Proof.
  intros Hmany. unfold HashFinder_Search.
  destruct ((bits <=? 0) || (32 <? bits)) eqn:Ebits; [by intros [= <-]|].
  destruct (length inputs =? 0)%nat; [by intros [= <-]|].
  apply orb_false_iff in Ebits as [E1 E2].
  apply Z.leb_gt in E1. apply Z.ltb_ge in E2.
  rewrite (tableMask_valid bits) by lia. intros Hloop Herr.
  destruct (searchLoop_success bits inputs fuel _ _ _ _ Hloop Herr)
    as (n & _ & _ & Hok & _).
  destruct (placeInputs_success (hasher_after r) bits ltac:(lia) inputs _ _ Hok)
    as (idxs & Hall & Hnd & _).
  assert (Forall (λ i, 0 ≤ i < 2 ^ bits) idxs) as Hrange.
  { clear -Hall E1. induction Hall as [|kw i l l' Hi _ IH]; constructor; [|done].
    by apply (tableIndex_range (hasher_after r) bits ltac:(lia) kw i). }
  pose proof (NoDup_bounded_length idxs (2 ^ bits) Hnd Hrange) as Hlen.
  apply Forall2_length in Hall. assert (0 < 2 ^ bits) by (apply Z.pow_pos_nonneg; lia).
  lia.
Qed.

Lemma Search_more_inputs_than_slots_witness :
  ∃ r, HashFinder_Search 100 (mkHF []) exampleFamily 1 ["if"; "else"; "for"]%string
       = Returns r
       ∧ err r ≠ None.
Proof.
  eexists. split; [vm_compute; reflexivity|].
  apply (Search_more_inputs_than_slots exampleFamily 100 (mkHF []) 1
           ["if"; "else"; "for"]%string); [simpl; lia|vm_compute; reflexivity].
Defined.

Lemma searchLoop_table_length {H : Type} `{Hash H} (fuel : nat) (hasher : H)
    (mask : Z) (t t' : list Z) (inputs : list string) (a : Z) :
  length t = length t' →
  searchLoop fuel hasher mask t inputs a = searchLoop fuel hasher mask t' inputs a.
Proof. intros Hlen. destruct fuel; [done|]. simpl. unfold clearTable. by rewrite Hlen. Qed.

(** The scratch table carries nothing from one call to the next: for
    arguments that pass the preconditions, [Search] returns the same
    count, error, hasher and table whatever table the finder held
    before, of whatever length. *)
Theorem Search_ignores_old_table {H : Type} `{Hash H} (hasher : H) (fuel : nat)
    (phf phf' : HashFinder) (bits : Z) (inputs : list string) :
  0 < bits ≤ 32 → inputs ≠ [] →
  HashFinder_Search fuel phf hasher bits inputs
  = HashFinder_Search fuel phf' hasher bits inputs.
Proof.
  intros Hbits Hinputs. unfold HashFinder_Search.
  destruct (bits <=? 0) eqn:E1; [apply Z.leb_le in E1; lia|].
  destruct (32 <? bits) eqn:E2; [apply Z.ltb_lt in E2; lia|]. simpl orb. cbv iota.
  destruct (length inputs =? 0)%nat eqn:E3;
    [apply Nat.eqb_eq in E3; by destruct inputs|].
  apply searchLoop_table_length. by rewrite !growTable_length.
Qed.

Lemma Search_ignores_old_table_witness :
  HashFinder_Search 10 (mkHF []) exampleFamily 2 ["if"; "else"; "for"]%string
  = HashFinder_Search 10 (mkHF [1; 1; 1; 1; 1; 1]) exampleFamily 2
      ["if"; "else"; "for"]%string.
Proof.
  apply (Search_ignores_old_table exampleFamily 10 (mkHF []) (mkHF [1; 1; 1; 1; 1; 1]) 2
           ["if"; "else"; "for"]%string); [lia|done].
Defined.

(** ** The order of the inputs *)

Lemma indices_Forall2 {H : Type} `{Hash H} (hasher : H) (mask : Z) (inputs : list string) :
  Forall (λ kw, is_Some (Hash_Hash hasher kw)) inputs →
  Forall2 (λ kw i, tableIndex hasher mask kw = Some i) inputs
          (indices hasher mask inputs).
Proof.
  induction 1 as [|kw l [h Hh] _ IH]; [constructor|].
  unfold indices. rewrite fmap_cons. constructor; [|exact IH].
  unfold tableIndex. by rewrite Hh.
Qed.

Lemma Forall2_indices {H : Type} `{Hash H} (hasher : H) (mask : Z)
    (inputs : list string) (idxs : list Z) :
  Forall2 (λ kw i, tableIndex hasher mask kw = Some i) inputs idxs →
  idxs = indices hasher mask inputs.
Proof.
  induction 1 as [|kw i l l' Hi _ IH]; [done|].
  unfold indices. rewrite fmap_cons, Hi. simpl. by rewrite IH.
Qed.

(** An attempt that fails met a slot that was taken: by the table it
    started from or by an earlier input of the same attempt. *)
Lemma placeInputs_failure_cause {H : Type} `{Hash H} (hasher : H) (b : Z)
    (inputs : list string) : ∀ t t' idxs,
  0 ≤ b →
  placeInputs hasher (2 ^ b - 1) t inputs = Some (false, t') →
  Forall2 (λ kw i, tableIndex hasher (2 ^ b - 1) kw = Some i) inputs idxs →
  (∃ i, i ∈ idxs ∧ t !! Z.to_nat i ≠ Some 0) ∨ ¬ NoDup idxs.
Proof.
  induction inputs as [|kw rest IH]; intros t t' idxs Hb; simpl; [done|].
  intros Hplace Hall. inversion Hall as [|? i ? idxs' Hi Hrest]; subst.
  rewrite Hi in Hplace. simpl in Hplace.
  destruct (t !! Z.to_nat i) as [tok|] eqn:Htok; [|done]. simpl in Hplace.
  destruct (tok =? 0) eqn:Hzero; simpl in Hplace.
  - destruct (IH _ _ _ Hb Hplace Hrest) as [(j & Hj & Hslot)|Hdup].
    + destruct (decide (i = j)) as [->|Hne].
      * right. intros Hnd. by apply NoDup_cons in Hnd as [Hnotin _].
      * left. exists j. split; [by right|].
        pose proof (tableIndex_range hasher b Hb kw i Hi) as [? _].
        assert (0 ≤ j).
        { apply list_elem_of_lookup in Hj as [k Hk].
          destruct (Forall2_lookup_r _ _ _ k j Hrest Hk) as (kw' & _ & Hkw').
          by apply (tableIndex_range hasher b Hb kw' j). }
        rewrite list_lookup_insert_ne in Hslot by lia. done.
    + right. intros Hnd. apply Hdup. by apply NoDup_cons in Hnd as [_ ?].
  - left. exists i. split; [by left|]. rewrite Htok. apply Z.eqb_neq in Hzero.
    intros [= ->]. done.
Qed.

(** On a cleared table an attempt over inputs the hasher evaluates
    succeeds exactly when their indices are pairwise distinct. *)
Lemma placeInputs_outcome {H : Type} `{Hash H} (hasher : H) (b : Z)
    (inputs : list string) :
  0 ≤ b → Forall (λ kw, is_Some (Hash_Hash hasher kw)) inputs →
  ∃ ok t', placeInputs hasher (2 ^ b - 1) (replicate (Z.to_nat (2 ^ b)) 0) inputs
           = Some (ok, t')
           ∧ (ok = true ↔ NoDup (indices hasher (2 ^ b - 1) inputs)).
Proof.
  intros Hb Hall.
  destruct (placeInputs_total hasher b Hb inputs (replicate (Z.to_nat (2 ^ b)) 0) Hall)
    as (ok & t' & Hplace); [by rewrite length_replicate|].
  exists ok, t'. split; [done|].
  pose proof (indices_Forall2 hasher (2 ^ b - 1) inputs Hall) as Hidx.
  destruct ok.
  - split; [intros _|done].
    destruct (placeInputs_success hasher b Hb inputs _ _ Hplace) as (idxs & Hi & Hnd & _).
    by rewrite <- (Forall2_indices _ _ _ _ Hi).
  - split; [done|]. intros Hnd.
    destruct (placeInputs_failure_cause hasher b inputs _ _ _ Hb Hplace Hidx)
      as [(i & Hi & Hslot)|Hdup]; [|done].
    apply list_elem_of_lookup in Hi as [k Hk].
    destruct (Forall2_lookup_r _ _ _ k i Hidx Hk) as (kw & _ & Hkw).
    pose proof (tableIndex_range hasher b Hb kw i Hkw) as [_ Hlt].
    rewrite lookup_replicate_2 in Hslot by done. done.
Qed.

Lemma searchLoop_permutation (b : Z) (inputs inputs' : list string) (fuel : nat) :
  0 ≤ b → inputs ≡ₚ inputs' →
  ∀ hs t t' a,
    evaluable hs → length t = Z.to_nat (2 ^ b) → length t' = Z.to_nat (2 ^ b) →
    observable (searchLoop fuel hs (2 ^ b - 1) t inputs a)
    = observable (searchLoop fuel hs (2 ^ b - 1) t' inputs' a).
Proof.
  intros Hb Hperm. induction fuel as [|fuel IH]; intros hs t t' a Heval Ht Ht'; [done|].
  cbn [searchLoop]. unfold clearTable. rewrite Ht, Ht'.
  destruct (placeInputs_outcome hs b inputs Hb (hashable_inputs hs inputs Heval))
    as (ok & t1 & Hplace & Hok).
  destruct (placeInputs_outcome hs b inputs' Hb (hashable_inputs hs inputs' Heval))
    as (ok' & t1' & Hplace' & Hok').
  rewrite Hplace, Hplace'.
  assert (ok = ok') as <-.
  { assert (indices hs (2 ^ b - 1) inputs ≡ₚ indices hs (2 ^ b - 1) inputs') as Hp
      by (unfold indices; by rewrite Hperm).
    rewrite Hp in Hok. destruct ok, ok'; try done.
    - symmetry. apply Hok'. by apply Hok.
    - apply Hok. by apply Hok'. }
  destruct ok; [done|].
  destruct (Hash_Increment hs) as [[hs' fin]|] eqn:Hinc; [|done].
  destruct fin; [done|].
  apply IH.
  - simpl in Hinc. unfold evaluable in *.
    eapply Increment_Forall; eauto using applyOk_init, applyOk_Increment.
  - apply placeInputs_length in Hplace. by rewrite Hplace, length_replicate.
  - apply placeInputs_length in Hplace'. by rewrite Hplace', length_replicate.
Qed.

(** The order of the inputs does not matter to a caller: over a family
    that can be evaluated, [Search] on a permutation of the inputs
    returns the same attempt count, the same error and the same
    family, or fails to return in the same way. *)
Theorem Search_permutation (hs : HashSequential) (fuel : nat) (phf : HashFinder)
    (bits : Z) (inputs inputs' : list string) :
  evaluable hs → inputs ≡ₚ inputs' →
  observable (HashFinder_Search fuel phf hs bits inputs)
  = observable (HashFinder_Search fuel phf hs bits inputs').
Proof.
  intros Heval Hperm. unfold HashFinder_Search.
  destruct ((bits <=? 0) || (32 <? bits)) eqn:Ebits; [done|].
  rewrite <- (Permutation_length Hperm).
  destruct (length inputs =? 0)%nat; [done|].
  apply orb_false_iff in Ebits as [E1 E2].
  apply Z.leb_gt in E1. apply Z.ltb_ge in E2.
  rewrite (tableMask_valid bits) by lia.
  apply searchLoop_permutation; [lia|done|done| |];
    by rewrite growTable_length, tableSize_valid by lia.
Qed.

Lemma Search_permutation_witness :
  observable (HashFinder_Search 10 (mkHF []) exampleFamily 2
                ["if"; "else"; "for"]%string)
  = observable (HashFinder_Search 10 (mkHF []) exampleFamily 2
                  ["for"; "if"; "else"]%string).
Proof.
  apply (Search_permutation exampleFamily 10 (mkHF []) 2
           ["if"; "else"; "for"]%string ["for"; "if"; "else"]%string).
  - unfold evaluable. simpl. concrete.
  - symmetry.
    apply (Permutation_cons_app (l := ["if"; "else"]%string)
             ["if"; "else"]%string [] "for"%string).
    by rewrite app_nil_r.
Defined.

(** ** What the hash depends on *)

Lemma apply_all_same_reads coefs s1 s2 : ∀ h,
  Forall applyOk coefs →
  Forall (λ c, byteRead (IndexApplied c) s1 = byteRead (IndexApplied c) s2) coefs →
  apply_all coefs h s1 = apply_all coefs h s2.
Proof.
  induction coefs as [|c rest IH]; intros h Hok Hreads; simpl; [done|].
  inversion Hok as [|? ? [Hidx _] Hrest]; inversion Hreads as [|? ? Hc Hr]; subst.
  rewrite !(Coef_Apply_spec c _ _ Hidx), Hc.
  destruct (combine _ _ _) as [h'|]; simpl; [by apply IH|done].
Qed.

(** The hash of a string depends on its length and on the bytes at the
    coefficients' indices only: two strings of the same length that
    have the same byte, or none, at every index hash alike, whatever
    the coefficient values and operations. *)
Theorem Hash_same_reads (hs : HashSequential) (s1 s2 : string) :
  evaluable hs → sameReads (Coefs hs) s1 s2 →
  HashSequential_Hash hs s1 = HashSequential_Hash hs s2.
Proof.
  intros Heval [Hlen Hreads]. unfold HashSequential_Hash. rewrite Hlen.
  by apply apply_all_same_reads.
Qed.

Lemma Hash_same_reads_witness :
  HashSequential_Hash exampleFamily "font" = HashSequential_Hash exampleFamily "fork".
Proof.
  apply (Hash_same_reads exampleFamily "font" "fork");
    [unfold evaluable; simpl; concrete|].
  split; [reflexivity|]. repeat constructor.
Defined.

(** The indices of a successful [Search], for any hasher. *)
Lemma Search_success_indices {H : Type} `{Hash H} (hasher : H) (fuel : nat)
    (phf : HashFinder) (bits : Z) (inputs : list string) (r : SearchResult H) :
  HashFinder_Search fuel phf hasher bits inputs = Returns r → err r = None →
  0 < bits ≤ 32
  ∧ ∃ idxs,
      Forall2 (λ kw i, tableIndex (hasher_after r) (2 ^ bits - 1) kw = Some i)
              inputs idxs
      ∧ NoDup idxs.
Proof.
  unfold HashFinder_Search.
  destruct ((bits <=? 0) || (32 <? bits)) eqn:Ebits; [by intros [= <-]|].
  destruct (length inputs =? 0)%nat; [by intros [= <-]|].
  apply orb_false_iff in Ebits as [E1 E2].
  apply Z.leb_gt in E1. apply Z.ltb_ge in E2.
  rewrite (tableMask_valid bits) by lia. intros Hloop Herr.
  destruct (searchLoop_success bits inputs fuel _ _ _ _ Hloop Herr)
    as (n & _ & _ & Hok & _).
  destruct (placeInputs_success (hasher_after r) bits ltac:(lia) inputs _ _ Hok)
    as (idxs & Hall & Hnd & _).
  split; [lia|]. by exists idxs.
Qed.

(** Two inputs the hasher gives the same hash, in whatever state the
    search leaves it, keep [Search] from succeeding. *)
Lemma Search_equal_hashes {H : Type} `{Hash H} (Inv : H → Prop) (hasher : H)
    (fuel : nat) (phf : HashFinder) (bits : Z) (inputs : list string)
    (i j : nat) (s1 s2 : string) (r : SearchResult H) :
  (∀ h h' fin, Inv h → Hash_Increment h = Some (h', fin) → Inv h') →
  (∀ h, Inv h → Hash_Hash h s1 = Hash_Hash h s2) →
  Inv hasher → i ≠ j → inputs !! i = Some s1 → inputs !! j = Some s2 →
  HashFinder_Search fuel phf hasher bits inputs = Returns r → err r ≠ None.
Proof.
  intros Hstep Hsame Hinv Hij Hi Hj Hsearch Herr.
  pose proof (Search_invariant Inv Hstep _ _ _ _ _ _ Hinv Hsearch) as Hinv'.
  destruct (Search_success_indices _ _ _ _ _ _ Hsearch Herr)
    as (_ & idxs & Hall & Hnd).
  destruct (Forall2_lookup_l _ _ _ i s1 Hall Hi) as (x & Hx & Hs1).
  destruct (Forall2_lookup_l _ _ _ j s2 Hall Hj) as (y & Hy & Hs2).
  unfold tableIndex in Hs1, Hs2. rewrite (Hsame _ Hinv') in Hs1.
  rewrite Hs1 in Hs2. injection Hs2 as <-.
  apply Hij. by eapply NoDup_lookup.
Qed.

(** No choice of coefficient values separates two strings the
    coefficients' indices cannot tell apart: when the inputs hold, at
    two positions, strings of the same length with the same byte or
    none at every index, [Search] never returns success. *)
Theorem Search_cannot_separate_same_reads (hs : HashSequential) (fuel : nat)
    (phf : HashFinder) (bits : Z) (inputs : list string) (i j : nat)
    (s1 s2 : string) (r : SearchResult HashSequential) :
  evaluable hs → sameReads (Coefs hs) s1 s2 →
  i ≠ j → inputs !! i = Some s1 → inputs !! j = Some s2 →
  HashFinder_Search fuel phf hs bits inputs = Returns r → err r ≠ None.
Proof.
  intros Heval [Hlen Hreads].
  apply (Search_equal_hashes
           (λ h : HashSequential,
              Forall (λ c, applyOk c
                           ∧ byteRead (IndexApplied c) s1 = byteRead (IndexApplied c) s2)
                     (Coefs h))).
  - intros h h' fin Hinv Hinc. simpl in Hinc.
    eapply Increment_Forall; [| |exact Hinc|exact Hinv].
    + intros c [Hok Hc]. split; [by apply applyOk_init|].
      by destruct (Coef_init_fields c) as (_ & _ & _ & -> & _).
    + intros c [Hok Hc]. split; [by apply applyOk_Increment|].
      by destruct (Coef_Increment_fields c) as (_ & _ & _ & -> & _).
  - intros h Hinv. simpl. unfold HashSequential_Hash. rewrite Hlen.
    apply apply_all_same_reads; eapply Forall_impl; try exact Hinv; by intros c [? ?].
  - apply Forall_and. split; [exact Heval|exact Hreads].
Qed.

Lemma Search_cannot_separate_same_reads_witness :
  ∃ r, HashFinder_Search 100 (mkHF []) exampleFamily 6
         ["font"; "if"; "fork"]%string = Returns r
       ∧ err r ≠ None.
Proof.
  eexists. split; [vm_compute; reflexivity|].
  apply (Search_cannot_separate_same_reads exampleFamily 100 (mkHF []) 6
           ["font"; "if"; "fork"]%string 0 2 "font" "fork");
    [unfold evaluable; simpl; concrete
    |split; [reflexivity|repeat constructor]
    |done|reflexivity|reflexivity|vm_compute; reflexivity].
Defined.

Lemma lxor_uint a b :
  0 ≤ a < uint_mod → 0 ≤ b < uint_mod → 0 ≤ Z.lxor a b < uint_mod.
Proof.
  intros Ha Hb. assert (0 ≤ Z.lxor a b) as Hnn by (apply Z.lxor_nonneg; lia).
  split; [done|]. destruct (decide (Z.lxor a b = 0)) as [->|Hne];
    [rewrite uint_mod_eq; lia|].
  assert (∀ x, 0 ≤ x < uint_mod → Z.log2 x < 64) as Hlog.
  { intros x Hx. destruct (decide (x = 0)) as [->|Hx0]; [done|].
    apply Z.log2_lt_pow2; [lia|]. exact (proj2 Hx). }
  pose proof (Z.log2_lxor a b (proj1 Ha) (proj1 Hb)) as Hle.
  pose proof (Hlog a Ha). pose proof (Hlog b Hb).
  change uint_mod with (2 ^ 64). apply Z.log2_lt_pow2; lia.
Qed.

Lemma Coef_Apply_uint c h kw h' :
  0 ≤ h < uint_mod → Coef_Apply c h kw = Some h' → 0 ≤ h' < uint_mod.
Proof.
  intros Hh. unfold Coef_Apply.
  destruct ((IndexApplied c <? 0) && (int_neg (IndexApplied c) <=? len kw)).
  - destruct (byteAt kw _) as [x|]; [|done]. simpl.
    pose proof (wrap_range (x * Value c)).
    destruct (CoefOp c =? OpAdd); [intros [= <-]; apply wrap_range|].
    destruct (CoefOp c =? OpXor); [intros [= <-]; by apply lxor_uint|].
    destruct (CoefOp c =? OpMul); [intros [= <-]; apply wrap_range|done].
  - destruct ((0 <=? IndexApplied c) && (IndexApplied c <? len kw)).
    + destruct (byteAt kw _) as [x|]; [|done]. simpl.
      pose proof (wrap_range (x * Value c)).
      destruct (CoefOp c =? OpAdd); [intros [= <-]; apply wrap_range|].
      destruct (CoefOp c =? OpXor); [intros [= <-]; by apply lxor_uint|].
      destruct (CoefOp c =? OpMul); [intros [= <-]; apply wrap_range|done].
    + simpl.
      destruct (CoefOp c =? OpAdd); [intros [= <-]; apply wrap_range|].
      destruct (CoefOp c =? OpXor);
        [intros [= <-]; apply lxor_uint; [done|rewrite uint_mod_eq; lia]|].
      destruct (CoefOp c =? OpMul); [intros [= <-]; apply wrap_range|done].
Qed.

(** Whatever the coefficients hold, a hash that [Hash] returns is a
    [uint]: the additions and multiplications wrap and the exclusive
    or of two [uint] is one. *)
Theorem Hash_is_uint (hs : HashSequential) (kw : string) (h : Z) :
  HashSequential_Hash hs kw = Some h → 0 ≤ h < uint_mod.
Proof.
  unfold HashSequential_Hash.
  generalize (wrap_range (uint_of_int (len kw) * Value (LenCoef hs))).
  generalize (wrap (uint_of_int (len kw) * Value (LenCoef hs))).
  induction (Coefs hs) as [|c rest IH]; intros h0 Hh0; simpl.
  - by intros [= <-].
  - destruct (Coef_Apply c h0 kw) as [h1|] eqn:Hc; [|done]. simpl.
    apply IH. by eapply Coef_Apply_uint.
Qed.

Lemma Hash_is_uint_witness : 0 ≤ 13 < uint_mod.
Proof. apply (Hash_is_uint exampleFamily "if" 13). reflexivity. Defined.

Lemma apply_all_app front back kw : ∀ h,
  apply_all (front ++ back) h kw = apply_all front h kw ≫= λ h', apply_all back h' kw.
Proof.
  induction front as [|c front IH]; intros h; simpl; [done|].
  destruct (Coef_Apply c h kw) as [h'|]; simpl; [apply IH|done].
Qed.

(** A multiplying coefficient whose index is out of range for a
    string multiplies the running hash by zero: when it is the last
    coefficient, the hash of every such string is 0, so all of them
    collide. *)
Theorem Hash_multiply_out_of_range (hs : HashSequential) (front : list Coef)
    (c : Coef) (kw : string) :
  Coefs hs = front ++ [c] → evaluable hs → CoefOp c = OpMul →
  byteRead (IndexApplied c) kw = None →
  HashSequential_Hash hs kw = Some 0.
Proof.
  intros Hcoefs Heval Hop Hread. unfold HashSequential_Hash, evaluable in *.
  rewrite Hcoefs in *. apply Forall_app in Heval as [Hfront Hc].
  inversion Hc as [|? ? [Hidx _] _]; subst.
  rewrite apply_all_app.
  destruct (apply_all_total front kw
              (wrap (uint_of_int (len kw) * Value (LenCoef hs))) Hfront) as [h' ->].
  simpl. rewrite (Coef_Apply_spec c h' kw Hidx), Hread, Hop. simpl.
  unfold combine. simpl. by rewrite Z.mul_0_r.
Qed.

Lemma Hash_multiply_out_of_range_witness :
  HashSequential_Hash
    (mkHS (mkCoef 0 1 16 0 false OpAdd)
          [mkCoef 0 1 16 0 false OpAdd; mkCoef 2 5 16 0 false OpMul]) "if"
  = Some 0.
Proof.
  apply (Hash_multiply_out_of_range _ [mkCoef 0 1 16 0 false OpAdd]
           (mkCoef 2 5 16 0 false OpMul) "if");
    [reflexivity|unfold evaluable; simpl; concrete|reflexivity|reflexivity].
Defined.

(** ** randomizeCoef of the Fortran example *)

(** For a coefficient whose MaxValue is a [uint], draws within the
    bounds [IntN] was given, and a positive search space that does not
    overflow the sum: [randomizeCoef] keeps the index, starts the
    coefficient at the drawn value, gives it one of the three
    operations and unit stepping, and narrows its range to a window of
    at most [searchSpace] values that begins at the start value, is
    not empty, and ends at or below the old MaxValue; so the MaxValue
    never grows from one randomization to the next. *)
Theorem randomizeCoef_window (c : Coef) (drawn1 drawn2 searchSpace : Z) :
  0 ≤ MaxValue c < uint_mod →
  0 ≤ drawn1 < int_of_uint (MaxValue c) → 0 ≤ drawn2 < Z.of_nat (length ops) →
  0 < searchSpace → drawn1 + searchSpace ≤ int_max →
  ∃ c', randomizeCoef c drawn1 drawn2 searchSpace = Some c'
        ∧ IndexApplied c' = IndexApplied c
        ∧ Value c' = drawn1 ∧ StartValue c' = drawn1
        ∧ StartValue c' < MaxValue c' ≤ MaxValue c
        ∧ MaxValue c' - StartValue c' ≤ searchSpace
        ∧ OnlyPow2 c' = false
        ∧ (CoefOp c' = OpAdd ∨ CoefOp c' = OpXor ∨ CoefOp c' = OpMul).
Proof.
  intros Hmax Hd1 Hd2 Hss Hsum. unfold randomizeCoef, IntN, int_of_uint, int_add in *.
  unfold int_max, int_wrap in *. rewrite uint_mod_eq in *.
  change (2 ^ (uint_bits - 1)) with 9223372036854775808 in *.
  assert (MaxValue c < 9223372036854775808) as Hsmall.
  { destruct (decide (MaxValue c < 9223372036854775808)) as [|Hbig]; [done|].
    replace ((MaxValue c + 9223372036854775808) mod 18446744073709551616)
      with (MaxValue c - 9223372036854775808) in Hd1; [lia|].
    apply (Z.mod_unique _ _ 1); lia. }
  rewrite (Z.mod_small (MaxValue c + _)) in * by lia.
  replace (MaxValue c + 9223372036854775808 - 9223372036854775808)
    with (MaxValue c) in * by lia.
  destruct (MaxValue c <=? 0) eqn:E; [apply Z.leb_le in E; lia|]. simpl.
  destruct (Z.of_nat (length ops) <=? 0) eqn:E2; [done|]. simpl.
  rewrite (Z.mod_small (drawn1 + searchSpace + _)) by lia.
  assert (∃ op, ops !! Z.to_nat drawn2 = Some op
                ∧ (op = OpAdd ∨ op = OpXor ∨ op = OpMul)) as (op & -> & Hop).
  { simpl in Hd2. assert (drawn2 = 0 ∨ drawn2 = 1 ∨ drawn2 = 2) as [->|[->| ->]] by lia;
      eexists; (split; [reflexivity|]); auto. }
  simpl. eexists. split; [reflexivity|]. simpl. unfold uint_of_int.
  rewrite !wrap_small by (rewrite uint_mod_eq; lia). repeat split; try done; lia.
Qed.

Lemma randomizeCoef_window_witness :
  ∃ c', randomizeCoef (mkCoef (-1) 1 64 0 false OpAdd) 60 2 10 = Some c'
        ∧ IndexApplied c' = -1
        ∧ Value c' = 60 ∧ StartValue c' = 60
        ∧ StartValue c' < MaxValue c' ≤ 64
        ∧ MaxValue c' - StartValue c' ≤ 10
        ∧ OnlyPow2 c' = false
        ∧ (CoefOp c' = OpAdd ∨ CoefOp c' = OpXor ∨ CoefOp c' = OpMul).
Proof.
  apply (randomizeCoef_window (mkCoef (-1) 1 64 0 false OpAdd) 60 2 10);
    unfold int_max; simpl; rewrite ?uint_mod_eq; try lia.
  - split; [lia|reflexivity].
  - by vm_compute.
Defined.

(** ** [Search] finds what the odometer reaches *)

Lemma searchLoop_finds (b : Z) (inputs : list string) (k : nat) :
  0 ≤ b →
  ∀ hs hk t a,
    evaluable hs → length t = Z.to_nat (2 ^ b) →
    advance k hs = Some hk → NoDup (indices hk (2 ^ b - 1) inputs) →
    ∃ r, searchLoop (S k) hs (2 ^ b - 1) t inputs a = Returns r
         ∧ err r = None ∧ a + 1 ≤ attempts r ≤ a + 1 + Z.of_nat k.
Proof.
  intros Hb. induction k as [|k IH]; intros hs hk t a Heval Hlen Hadv Hnd;
    cbn [searchLoop]; unfold clearTable; rewrite Hlen;
    destruct (placeInputs_outcome hs b inputs Hb (hashable_inputs hs inputs Heval))
      as (ok & t1 & Hplace & Hok);
    rewrite Hplace.
  - injection Hadv as <-. apply Hok in Hnd as ->.
    eexists. split; [reflexivity|]. simpl. split; [done|lia].
  - destruct ok; [eexists; split; [reflexivity|]; simpl; split; [done|lia]|].
    simpl in Hadv. cbn [Hash_Increment HashSequential_Hash_impl].
    destruct (HashSequential_Increment hs) as [[hs' fin]|] eqn:Hinc; [|done].
    destruct fin; [done|].
    destruct (IH hs' hk t1 (a + 1)) as (r & Hr & Herr & Hatt);
      [unfold evaluable in *;
       eapply Increment_Forall; eauto using applyOk_init, applyOk_Increment
      |apply placeInputs_length in Hplace; by rewrite Hplace, length_replicate
      |done|done|].
    exists r. split; [done|]. split; [done|lia].
Qed.

(** [Search] misses nothing the odometer reaches: when the family,
    advanced [k] times without reporting done, gives the inputs
    pairwise distinct indices, [Search] returns success after at most
    [k + 1] attempts. *)
Theorem Search_finds_reachable_perfect_hash (hs hk : HashSequential) (k : nat)
    (phf : HashFinder) (bits : Z) (inputs : list string) :
  evaluable hs → 0 < bits ≤ 32 → inputs ≠ [] →
  advance k hs = Some hk → NoDup (indices hk (2 ^ bits - 1) inputs) →
  ∃ r, HashFinder_Search (S k) phf hs bits inputs = Returns r
       ∧ err r = None ∧ 1 ≤ attempts r ≤ Z.of_nat k + 1.
Proof.
  intros Heval Hbits Hinputs Hadv Hnd. unfold HashFinder_Search.
  destruct (bits <=? 0) eqn:E1; [apply Z.leb_le in E1; lia|].
  destruct (32 <? bits) eqn:E2; [apply Z.ltb_lt in E2; lia|]. simpl orb. cbv iota.
  destruct (length inputs =? 0)%nat eqn:E3;
    [apply Nat.eqb_eq in E3; by destruct inputs|].
  rewrite (tableMask_valid bits Hbits).
  destruct (searchLoop_finds bits inputs k ltac:(lia) hs hk
              (growTable (hashmap phf) (tableSize bits)) 0)
    as (r & Hr & Herr & Hatt);
    [done|by rewrite growTable_length, tableSize_valid|done|done|].
  exists r. split; [done|]. split; [done|lia].
Qed.

Lemma Search_finds_reachable_perfect_hash_witness :
  ∃ r, HashFinder_Search 6 (mkHF []) exampleFamily 2 ["if"; "else"; "for"]%string
       = Returns r
       ∧ err r = None ∧ 1 ≤ attempts r ≤ Z.of_nat 5 + 1.
Proof.
  eapply (Search_finds_reachable_perfect_hash exampleFamily _ 5 (mkHF []) 2
            ["if"; "else"; "for"]%string);
    [unfold evaluable; simpl; concrete|lia|done|vm_compute; reflexivity|].
  vm_compute. repeat constructor; intros Hin;
    repeat (apply elem_of_cons in Hin as [Hin|Hin]; [discriminate|]);
    by apply elem_of_nil in Hin.
Defined.
